(** * The rate-limiter middleware of imdb-api

    A shallow embedding of [src/middlewares/rateLimiter.ts] and the
    properties of its admission decisions.

    Modelling choices.
    - JavaScript numbers are modelled as [Z].  Every number that occurs
      is an integer ([Date.now()] readings, array lengths, the two
      options as the service sets them, 60 and 100), and the arithmetic
      [now - time * 1000] is exact on IEEE doubles as long as
      [|time * 1000| < 2^53].
    - [Date.now()] is an input of the middleware: the clock reading is
      passed as the argument [now].
    - JavaScript arrays are mutable objects.  The [Map] of the closure
      holds references into a heap of arrays, so that [recent.push(now)]
      after [requests.set(ip, recent)] is seen through the map.
    - [res.status(429).json(body)] and [next()] are the two ways the
      middleware can finish; they are the constructors of [Outcome]. *)

From stdpp Require Import gmap strings list fin_maps sorting.

Open Scope Z_scope.

(** ** Data model *)

(** [interface IRateLimiterOptions] *)
Record IRateLimiterOptions := {
  windowInSeconds : Z;
  maxRequests : Z
}.

(** The part of an Express request the middleware reads: [req.ip],
    of type [string | undefined]. *)
Record Request := {
  ip : option string
}.

(** Values handed to [res.json] in this service: the middleware passes
    a bare string, the route handlers pass objects such as
    [{ error: 'Missing query parameter' }]. *)
Inductive Json :=
  | JString (s : string)
  | JObject (fields : list (string * string)).

(** How an invocation of the middleware ends: [next()] or a response. *)
Inductive Outcome :=
  | Next
  | Respond (status : Z) (body : Json).

Global Instance Json_eq_dec : EqDecision Json.
Proof. solve_decision. Defined.

Global Instance Outcome_eq_dec : EqDecision Outcome.
Proof. solve_decision. Defined.

(** The closure's state: a heap of arrays addressed by references
    ([positive]), and [const requests = new Map<string, number[]>()],
    which maps a key to the reference of its array. *)
Record Store := {
  arrays : gmap positive (list Z);
  requests : gmap string positive
}.

(** The state right after [rateLimiter(options)] has been called. *)
Definition new_store : Store := {| arrays := ∅; requests := ∅ |}.

(** ** Operations on the store *)

(** An array literal or the result of [filter]: a new object. *)
Definition alloc (a : list Z) (h : gmap positive (list Z))
  : positive * gmap positive (list Z) :=
  let r := fresh (dom h) in (r, <[r := a]> h).

(** Reading the contents of an array. *)
Definition deref (h : gmap positive (list Z)) (r : positive) : list Z :=
  default [] (h !! r).

(** [a.push(x)] *)
Definition push (r : positive) (x : Z) (h : gmap positive (list Z))
  : gmap positive (list Z) :=
  alter (λ a, a ++ [x]) r h.

(** What the registry holds for a key, seen through the references. *)
Definition bucket (σ : Store) (k : string) : option (list Z) :=
  requests σ !! k ≫= λ r, arrays σ !! r.

Definition stored (σ : Store) (k : string) : list Z :=
  default [] (bucket σ k).

(** ** The middleware *)

(** [req.ip || 'unknown']: [undefined] and the empty string are falsy. *)
Definition client_key (req : Request) : string :=
  match ip req with
  | Some s => if decide (s = "") then "unknown" else s
  | None => "unknown"
  end.

(** The predicate of the filter: [(time) => now - time * 1000 < windowInSeconds]. *)
Definition fresh_enough (opts : IRateLimiterOptions) (now time : Z) : Prop :=
  now - time * 1000 < windowInSeconds opts.

Global Instance fresh_enough_dec opts now time :
  Decision (fresh_enough opts now time).
Proof. unfold fresh_enough. apply _. Defined.

Definition too_many_requests : Json := JString "Too many requests".

(** The returned closure [(req, res, next) => { ... }], with the clock
    reading [now] and the closure's state made explicit. *)
Definition rateLimiter (opts : IRateLimiterOptions)
    (req : Request) (now : Z) (σ : Store) : Store * Outcome :=
  let ip := client_key req in
  (* if (!requests.has(ip)) { requests.set(ip, []); } *)
  let σ1 :=
    match requests σ !! ip with
    | Some _ => σ
    | None =>
        let '(r0, h0) := alloc [] (arrays σ) in
        {| arrays := h0; requests := <[ip := r0]> (requests σ) |}
    end in
  (* const userRequests = requests.get(ip) ?? []; *)
  let userRequests :=
    match requests σ1 !! ip with
    | Some r => deref (arrays σ1) r
    | None => []
    end in
  (* const recent = userRequests.filter(...) *)
  let recent := filter (fresh_enough opts now) userRequests in
  let '(r, h) := alloc recent (arrays σ1) in
  (* requests.set(ip, recent); *)
  let σ2 := {| arrays := h; requests := <[ip := r]> (requests σ1) |} in
  if decide (maxRequests opts ≤ Z.of_nat (length recent)) then
    (* return res.status(429).json('Too many requests'); *)
    (σ2, Respond 429 too_many_requests)
  else
    (* recent.push(now); next(); *)
    ({| arrays := push r now (arrays σ2); requests := requests σ2 |}, Next).

(** ** Serving a sequence of requests *)

(** One served request, as an observer sees it. *)
Record Event := {
  ev_key : string;
  ev_time : Z;
  ev_outcome : Outcome
}.

Definition serve_one (opts : IRateLimiterOptions)
    (st : Store * list Event) (call : Request * Z) : Store * list Event :=
  let '(σ', o) := rateLimiter opts call.1 call.2 st.1 in
  (σ', st.2 ++ [{| ev_key := client_key call.1; ev_time := call.2;
                   ev_outcome := o |}]).

(** The requests [calls], each with the clock reading at which it is
    handled, served in order by one limiter instance. *)
Definition serve (opts : IRateLimiterOptions) (calls : list (Request * Z))
  : Store * list Event :=
  foldl (serve_one opts) (new_store, []) calls.

Definition outcomes (opts : IRateLimiterOptions) (calls : list (Request * Z))
  : list Outcome :=
  ev_outcome <$> (serve opts calls).2.

(** The clock readings at which requests of key [k] were admitted. *)
Definition admitted_at (k : string) (e : Event) : option Z :=
  if decide (ev_key e = k ∧ ev_outcome e = Next) then Some (ev_time e) else None.

Definition admitted (k : string) (log : list Event) : list Z :=
  omap (admitted_at k) log.

(** ** Vocabulary of the properties *)

(** Every reference held by the map points to an allocated array. *)
Definition store_ok (σ : Store) : Prop :=
  ∀ k r, requests σ !! k = Some r → is_Some (arrays σ !! r).

(** The array the filter produces in an invocation. *)
Definition recent_of (opts : IRateLimiterOptions)
    (req : Request) (now : Z) (σ : Store) : list Z :=
  filter (fresh_enough opts now) (stored σ (client_key req)).

Definition times (calls : list (Request * Z)) : list Z := calls.*2.

(** The clock never runs backwards between two handled requests. *)
Definition clock_monotone (calls : list (Request * Z)) : Prop :=
  StronglySorted Z.le (times calls).

(** The trailing window of [windowInSeconds] seconds that ends at the
    instant [e] (milliseconds): the instants of age strictly less than
    the window. *)
Definition in_window (opts : IRateLimiterOptions) (e t : Z) : Prop :=
  e - windowInSeconds opts * 1000 < t ∧ t ≤ e.

Global Instance in_window_dec opts e t : Decision (in_window opts e t).
Proof. unfold in_window. apply _. Defined.

(** The number of requests of key [k] admitted within the window ending at [e]. *)
Definition admitted_in_window (opts : IRateLimiterOptions)
    (k : string) (e : Z) (log : list Event) : nat :=
  length (filter (in_window opts e) (admitted k log)).

(** Every clock reading passes the filter at every clock reading. *)
Definition always_fresh (opts : IRateLimiterOptions) (ts : list Z) : Prop :=
  ∀ t now, t ∈ ts → now ∈ ts → fresh_enough opts now t.

(** The pruning rule in the words of the specification: keep [t] when
    its age in milliseconds is strictly less than the window converted
    to milliseconds. *)
Definition spec_fresh_enough (opts : IRateLimiterOptions) (now t : Z) : Prop :=
  now - t < windowInSeconds opts * 1000.

Global Instance spec_fresh_enough_dec opts now t :
  Decision (spec_fresh_enough opts now t).
Proof. unfold spec_fresh_enough. apply _. Defined.

(** ** Concrete requests, clock readings and options *)

(** The service's configuration: [rateLimiter({ windowInSeconds: 60, maxRequests: 100 })]. *)
Definition service_options : IRateLimiterOptions :=
  {| windowInSeconds := 60; maxRequests := 100 |}.

Definition from (addr : string) : Request := {| ip := Some addr |}.

(** A clock reading of November 2023 and a client address. *)
Definition T0 : Z := 1700000000000.
Definition client : Request := from "203.0.113.7".

(** The whole quota of the service used at [T0], then one request one
    millisecond after the window has passed. *)
Definition burst_then_wait : list (Request * Z) :=
  replicate 100 (client, T0) ++ [(client, T0 + 60 * 1000 + 1)].

(** One request at [T0], one more than a window later. *)
Definition two_far_apart : list (Request * Z) :=
  [(client, T0); (client, T0 + 60 * 1000 + 1)].

Definition two_per_minute : IRateLimiterOptions :=
  {| windowInSeconds := 60; maxRequests := 2 |}.

Definition one_per_minute : IRateLimiterOptions :=
  {| windowInSeconds := 60; maxRequests := 1 |}.

Definition other_client : Request := from "198.51.100.2".

(** Four requests of [client] within three milliseconds, and one of
    another client in between. *)
Definition four_quick_calls : list (Request * Z) :=
  [(client, T0); (client, T0 + 1); (other_client, T0 + 1);
   (client, T0 + 2); (client, T0 + 3)].

(** A century after the quota was used up. *)
Definition a_century_later : Z := T0 + 100 * 365 * 24 * 3600 * 1000.

(** Two requests of [client], then a clock that jumps some 54000 years
    ahead for one request and comes back: the third reading is the
    least one at which the filter drops both earlier entries. *)
Definition jump_and_back : list (Request * Z) :=
  [(client, T0); (client, T0 + 1); (client, (T0 + 1) * 1000 + 60);
   (client, T0 + 2)].

(** A request without [req.ip]. *)
Definition no_address : Request := {| ip := None |}.

(** ** Tactics *)

(** Reading back what was just written to a map. *)
Ltac read_maps :=
  repeat (progress (rewrite ?lookup_insert_eq, ?lookup_alter_eq; simpl in *)).

(** ** Further vocabulary *)

(** The requests of a history that are handled under the key [k]. *)
Definition requests_of (k : string) (calls : list (Request * Z))
  : list (Request * Z) :=
  filter (λ c : Request * Z, client_key c.1 = k) calls.

(** The keys under which the requests of a history were handled. *)
Definition keys_of (calls : list (Request * Z)) : list string :=
  (λ c : Request * Z, client_key c.1) <$> calls.

(** Requests of two clients spread over three days. *)
Definition three_days : list (Request * Z) :=
  [(client, T0); (other_client, T0 + 1000); (client, T0 + 86400000);
   (client, T0 + 2 * 86400000); (other_client, T0 + 3 * 86400000)].

Definition nothing_allowed : IRateLimiterOptions :=
  {| windowInSeconds := 60; maxRequests := 0 |}.

(** ** The JavaScript limiter *)

(** What the JavaScript limiter can see of a request: [req.ip], of type
    [string | undefined], and the URL of the request, which Express
    keeps in [req.originalUrl]. *)
Record JsRequest := {
  js_ip : option string;
  originalUrl : string
}.

(** [const { ip } = req.ip; const key = `${ip}:${req.originalURl}`;]
    Destructuring [undefined] throws a TypeError ([None]).  A string
    has no property [ip] and a request has no property [originalURl],
    so both holes of the template are filled with [undefined]. *)
Definition js_key (req : JsRequest) : option string :=
  match js_ip req with
  | Some _ => Some "undefined:undefined"
  | None => None
  end.

(** The predicate of the filter, [(time) => now - time * 1000], read as
    a truth value: a number is truthy unless it is zero. *)
Definition js_kept (now time : Z) : Prop := now - time * 1000 ≠ 0.

Global Instance js_kept_dec now time : Decision (js_kept now time).
Proof. unfold js_kept. apply _. Defined.

(** An invocation throws, or finishes like the TypeScript one. *)
Inductive JsResult :=
  | Threw
  | Finished (σ : Store) (o : Outcome).

(** The closure returned by the JavaScript [rateLimiter]. *)
Definition rateLimiterJs (opts : IRateLimiterOptions)
    (req : JsRequest) (now : Z) (σ : Store) : JsResult :=
  match js_key req with
  | None => Threw
  | Some key =>
      (* if (!requests.has(key)) { requests.set(key, []); } *)
      let σ1 :=
        match requests σ !! key with
        | Some _ => σ
        | None =>
            let '(r0, h0) := alloc [] (arrays σ) in
            {| arrays := h0; requests := <[key := r0]> (requests σ) |}
        end in
      (* const recent = requests.get(key).filter(...) *)
      match requests σ1 !! key with
      | None => Threw
      | Some r1 =>
          let recent := filter (js_kept now) (deref (arrays σ1) r1) in
          let '(r, h) := alloc recent (arrays σ1) in
          (* requests.set(key, recent); *)
          let σ2 := {| arrays := h; requests := <[key := r]> (requests σ1) |} in
          if decide (maxRequests opts ≤ Z.of_nat (length recent)) then
            (* return res.status(429).json("Too many requests"); *)
            Finished σ2 (Respond 429 too_many_requests)
          else
            (* requests.get(key).push(now); next(); *)
            match requests σ2 !! key with
            | None => Threw
            | Some r2 =>
                Finished {| arrays := push r2 now (arrays σ2);
                            requests := requests σ2 |} Next
            end
      end
  end.

(** Serving a history with the JavaScript limiter: an invocation that
    throws leaves the state as it was and is logged as [None]. *)
Definition serveJs_one (opts : IRateLimiterOptions)
    (st : Store * list (option Outcome)) (call : JsRequest * Z)
  : Store * list (option Outcome) :=
  match rateLimiterJs opts call.1 call.2 st.1 with
  | Threw => (st.1, st.2 ++ [None])
  | Finished σ' o => (σ', st.2 ++ [Some o])
  end.

Definition serveJs (opts : IRateLimiterOptions) (calls : list (JsRequest * Z))
  : Store * list (option Outcome) :=
  foldl (serveJs_one opts) (new_store, []) calls.

(** The requests of a history that carry an address. *)
Definition with_address (calls : list (JsRequest * Z)) : list (JsRequest * Z) :=
  filter (λ c : JsRequest * Z, is_Some (js_ip c.1)) calls.

(** The number of admitted requests in a log of the JavaScript limiter. *)
Definition admittedJs (log : list (option Outcome)) : nat :=
  length (filter (λ o, o = Some Next) log).

(** No clock reading is a thousand times another one, so that the filter
    of the JavaScript limiter keeps every reading at every reading. *)
Definition never_thousandfold (ts : list Z) : Prop :=
  ∀ t now, t ∈ ts → now ∈ ts → js_kept now t.

Definition the_js_key : string := "undefined:undefined".

(** Requests of two clients for two URLs, and one without address. *)
Definition js_calls : list (JsRequest * Z) :=
  [({| js_ip := Some "203.0.113.7"; originalUrl := "/imdbSearchByName" |}, T0);
   ({| js_ip := None; originalUrl := "/getFavoritesMovies" |}, T0 + 500);
   ({| js_ip := Some "198.51.100.2"; originalUrl := "/getFavoritesMovies" |},
    T0 + 1000);
   ({| js_ip := Some "203.0.113.7"; originalUrl := "/imdbSearchById" |},
    T0 + 86400000)].

Definition js_client : JsRequest :=
  {| js_ip := Some "192.0.2.9"; originalUrl := "/getFavoritesMovies" |}.

(** One request of a history per clock reading, all by the same request. *)
Definition at_times {R} (req : R) (ts : list Z) : list (R * Z) :=
  (λ t, (req, t)) <$> ts.

(** ** The route handlers with the in-memory favourites *)

(** [interface IMovie]; the field [Type] is written [Type_]. *)
Record Rating := {
  Source : string;
  Value : string
}.

Inductive TrueOrFalse := StringTrue | StringFalse.

Record IMovie := {
  Title : string;
  Year : string;
  Rated : string;
  Released : string;
  Runtime : string;
  Genre : string;
  Director : string;
  Writer : string;
  Actors : string;
  Plot : string;
  Language : string;
  Country : string;
  Awards : string;
  Poster : string;
  Ratings : list Rating;
  Metascore : string;
  imdbRating : string;
  imdbVotes : string;
  imdbID : string;
  Type_ : string;
  DVD : string;
  BoxOffice : string;
  Production : string;
  Website : string;
  Response : TrueOrFalse
}.

(** A query parameter that is present: a string, or an array or object
    made by the query parser.  Of the latter the handlers see only that
    it is truthy and not strictly equal to any string. *)
Inductive QueryValue :=
  | QString (s : string)
  | QNested.

Global Instance QueryValue_eq_dec : EqDecision QueryValue.
Proof. solve_decision. Defined.

(** What the handlers read of a request: [req.query.query],
    [req.query.id] and [req.headers.authorization]. *)
Record AppRequest := {
  query_query : option QueryValue;
  query_id : option QueryValue;
  headers_authorization : option string
}.

(** A response: [res.status(n).json(body)], with status 200 when the
    handler does not set one.  The body is one of the handler's own
    literals or data passed on. *)
Inductive Body (D : Type) :=
  | Fixed (j : Json)
  | Data (d : D).
Arguments Fixed {D} j.
Arguments Data {D} d.

Record Reply (D : Type) := {
  status : Z;
  body : Body D
}.
Arguments status {D} _.
Arguments body {D} _.

Definition error_reply {D} (code : Z) (message : string) : Reply D :=
  {| status := code; body := Fixed (JObject [("error", message)]) |}.

Definition ok_reply {D} (data : D) : Reply D :=
  {| status := 200; body := Data data |}.

(** The request a handler sends upstream with [fetch]: the URL up to the
    parameter, the value handed to [encodeURIComponent], and the
    [authorization] header. *)
Record UpstreamCall := {
  url_prefix : string;
  parameter : QueryValue;
  authorization_header : string
}.

(** A handler either finishes without contacting the upstream service or
    awaits one [fetch] and goes on with its result: [Some data] when
    [fetch] and [response.json()] both resolve, [None] when one of them
    rejects. *)
Inductive Run (D A : Type) :=
  | Done (a : A)
  | Await (call : UpstreamCall) (resume : option D → A).
Arguments Done {D A} a.
Arguments Await {D A} call resume.

Definition complete {D A} (run : Run D A) (fetched : option D) : A :=
  match run with
  | Done a => a
  | Await _ resume => resume fetched
  end.

(** A string that is truthy. *)
Definition nonempty (a : option string) : option string :=
  match a with
  | Some s => if decide (s = "") then None else Some s
  | None => None
  end.

(** [a || b] on [string | undefined]. *)
Definition js_or (a b : option string) : option string :=
  match nonempty a with
  | Some s => Some s
  | None => b
  end.

(** A query parameter that is truthy. *)
Definition truthy (q : option QueryValue) : option QueryValue :=
  match q with
  | Some (QString s) => if decide (s = "") then None else q
  | Some QNested => q
  | None => None
  end.

(** [app.get("/imdbSearchByName", async (req, res) => ...)] *)
Definition imdbSearchByName {D} (API_KEY : option string) (req : AppRequest)
  : Run D (Reply D) :=
  match truthy (query_query req) with
  | None => Done (error_reply 400 "Missing query parameter")
  | Some query =>
      match nonempty (js_or (headers_authorization req) API_KEY) with
      | None =>
          Done (error_reply 401
                  "Missing API key. Please provide authorization header.")
      | Some apiKey =>
          Await {| url_prefix :=
                     "https://api.collectapi.com/imdb/imdbSearchByName?query=";
                   parameter := query;
                   authorization_header := "apikey " ++ apiKey |}
            (λ fetched,
               match fetched with
               | Some data => ok_reply data
               | None => error_reply 500 "Failed to fetch IMDB data"
               end)
      end
  end.

(** [app.get("/imdbSearchById", async (req, res) => ...)] *)
Definition imdbSearchById {D} (API_KEY : option string) (req : AppRequest)
  : Run D (Reply D) :=
  match truthy (query_id req) with
  | None => Done (error_reply 400 "Missing id parameter")
  | Some id =>
      match nonempty (js_or (headers_authorization req) API_KEY) with
      | None =>
          Done (error_reply 401
                  "Missing API key. Please provide authorization header.")
      | Some apiKey =>
          Await {| url_prefix :=
                     "https://api.collectapi.com/imdb/imdbSearchById?movieId=";
                   parameter := id;
                   authorization_header := "apikey " ++ apiKey |}
            (λ fetched,
               match fetched with
               | Some data => ok_reply data
               | None => error_reply 500 "Failed to fetch IMDB data"
               end)
      end
  end.

(** [app.post("/addFavoritesMoviesById", async (req, res) => ...)]; the
    handler acts on [favoritesMovies] as it is when the handler resumes. *)
Definition addFavoritesMoviesById (API_KEY : option string) (req : AppRequest)
  : Run IMovie (list IMovie → list IMovie * Reply IMovie) :=
  match truthy (query_id req) with
  | None => Done (λ favoritesMovies,
                    (favoritesMovies, error_reply 400 "Missing id parameter"))
  | Some id =>
      match nonempty (js_or (headers_authorization req) API_KEY) with
      | None =>
          Done (λ favoritesMovies,
                  (favoritesMovies,
                   error_reply 401
                     "Missing API key. Please provide authorization header."))
      | Some apiKey =>
          Await {| url_prefix :=
                     "https://api.collectapi.com/imdb/imdbSearchById?movieId=";
                   parameter := id;
                   authorization_header := "apikey " ++ apiKey |}
            (λ fetched favoritesMovies,
               match fetched with
               | Some data =>
                   (* favoritesMovies.push(data); res.json(data); *)
                   (favoritesMovies ++ [data], ok_reply data)
               | None =>
                   (favoritesMovies,
                    error_reply 500 "Failed to fetch IMDB data")
               end)
      end
  end.

(** [app.get("/getFavoritesMovies", async (req, res) => ...)] *)
Definition getFavoritesMovies (favoritesMovies : list IMovie)
  : list IMovie * Reply (list IMovie) :=
  (favoritesMovies, ok_reply favoritesMovies).

(** [movie.imdbID === id] *)
Definition has_id (id : QueryValue) (movie : IMovie) : Prop :=
  QString (imdbID movie) = id.

Global Instance has_id_dec id movie : Decision (has_id id movie).
Proof. unfold has_id. apply _. Defined.

(** [app.delete("/deleteFromFavoritesMoviesById", async (req, res) => ...)] *)
Definition deleteFromFavoritesMoviesById (req : AppRequest)
    (favoritesMovies : list IMovie) : list IMovie * Reply (list IMovie) :=
  match truthy (query_id req) with
  | None => (favoritesMovies, error_reply 400 "Missing id parameter")
  | Some id =>
      (* const movie = favoritesMovies.find((movie) => movie.imdbID === id); *)
      match list_find (has_id id) favoritesMovies with
      | None => (favoritesMovies, error_reply 404 "Movie not found")
      | Some _ =>
          (* favoritesMovies = favoritesMovies.filter((movie) => movie.imdbID === id); *)
          let favoritesMovies' := filter (has_id id) favoritesMovies in
          (favoritesMovies', ok_reply favoritesMovies')
      end
  end.

(** A movie of which only the id and the title are filled in. *)
Definition movie (id title : string) : IMovie :=
  {| Title := title; Year := ""; Rated := ""; Released := ""; Runtime := "";
     Genre := ""; Director := ""; Writer := ""; Actors := ""; Plot := "";
     Language := ""; Country := ""; Awards := ""; Poster := ""; Ratings := [];
     Metascore := ""; imdbRating := ""; imdbVotes := ""; imdbID := id;
     Type_ := "movie"; DVD := ""; BoxOffice := ""; Production := "";
     Website := ""; Response := StringTrue |}.

Definition inception : IMovie := movie "tt1375666" "Inception".
Definition matrix : IMovie := movie "tt0133093" "The Matrix".

(** A request with [?id=...] and no [authorization] header. *)
Definition by_id (id : string) : AppRequest :=
  {| query_query := None; query_id := Some (QString id);
     headers_authorization := None |}.

(** The replies of a search handler, by case: the parameter [q] the
    handler requires, the key it would use, and what the upstream
    fetch gave. *)
Definition search_replies {D} (run : Run D (Reply D))
    (q : option QueryValue) (key : option string) (fetched : option D) : Prop :=
  let reply := complete run fetched in
  (status reply = 400 ↔ truthy q = None) ∧
  (status reply = 401 ↔ is_Some (truthy q) ∧ nonempty key = None) ∧
  (status reply = 500 ↔
     is_Some (truthy q) ∧ is_Some (nonempty key) ∧ fetched = None) ∧
  (status reply = 200 ↔
     is_Some (truthy q) ∧ is_Some (nonempty key) ∧ is_Some fetched) ∧
  (∀ data, fetched = Some data → status reply = 200 → reply = ok_reply data).

(** A search request with a query and an [authorization] header. *)
Definition search_request : AppRequest :=
  {| query_query := Some (QString "inception"); query_id := None;
     headers_authorization := Some "client-key" |}.

(** * Properties of the embedding *)

(** ** One invocation *)

Lemma fresh_ref_unused (h : gmap positive (list Z)) : h !! fresh (dom h) = None.
Proof. apply not_elem_of_dom, is_fresh. Qed.

Lemma fresh_ref_ne (h : gmap positive (list Z)) r :
  is_Some (h !! r) → fresh (dom h) ≠ r.
Proof. intros [a Ha] <-. rewrite fresh_ref_unused in Ha. discriminate. Qed.

Section one_invocation.
Variable opts : IRateLimiterOptions.
Variables (req : Request) (now : Z) (σ : Store).

Let k := client_key req.
Let recent := recent_of opts req now σ.

Lemma rateLimiter_reject :
  maxRequests opts ≤ Z.of_nat (length recent) →
  (rateLimiter opts req now σ).2 = Respond 429 too_many_requests ∧
  bucket (rateLimiter opts req now σ).1 k = Some recent.
Proof.
  subst k recent. unfold recent_of, stored, bucket, rateLimiter, alloc, deref.
  intros Hfull.
  destruct (requests σ !! client_key req) as [r|] eqn:Hk; simpl in *.
  - rewrite Hk. simpl in *. rewrite decide_True by done. read_maps. done.
  - read_maps. rewrite decide_True by done. read_maps. done.
Qed.

Lemma rateLimiter_admit :
  Z.of_nat (length recent) < maxRequests opts →
  (rateLimiter opts req now σ).2 = Next ∧
  bucket (rateLimiter opts req now σ).1 k = Some (recent ++ [now]).
Proof.
  subst k recent. unfold recent_of, stored, bucket, rateLimiter, alloc, deref, push.
  intros Hroom.
  destruct (requests σ !! client_key req) as [r|] eqn:Hk; simpl in *.
  - rewrite Hk. simpl in *. rewrite decide_False by lia. read_maps. done.
  - read_maps. rewrite decide_False by lia. read_maps. done.
Qed.

Lemma rateLimiter_frame k' :
  store_ok σ → k' ≠ k → bucket (rateLimiter opts req now σ).1 k' = bucket σ k'.
Proof.
  subst k. unfold store_ok, bucket, rateLimiter, alloc, deref, push.
  intros Hok Hne.
  destruct (requests σ !! client_key req) as [r|] eqn:Hk; simpl in *.
  - rewrite Hk. simpl.
    case_decide; simpl; rewrite lookup_insert_ne by done;
      destruct (requests σ !! k') as [r'|] eqn:Hk'; simpl; try done;
      pose proof (fresh_ref_ne _ _ (Hok _ _ Hk')) as Hr'.
    + by rewrite lookup_insert_ne.
    + rewrite lookup_alter_ne by done. by rewrite lookup_insert_ne.
  - rewrite !lookup_insert_eq. simpl.
    set (h0 := <[fresh (dom (arrays σ)) := []]> (arrays σ)).
    assert (∀ r', is_Some (arrays σ !! r') →
              is_Some (h0 !! r') ∧ h0 !! r' = arrays σ !! r') as Hh0.
    { intros r' Hr'. subst h0. rewrite lookup_insert_ne by by apply fresh_ref_ne.
      done. }
    case_decide; simpl; rewrite !lookup_insert_ne by done;
      destruct (requests σ !! k') as [r'|] eqn:Hk'; simpl; try done;
      destruct (Hh0 _ (Hok _ _ Hk')) as [Hal Heq];
      pose proof (fresh_ref_ne _ _ Hal) as Hr'.
    + by rewrite lookup_insert_ne.
    + rewrite lookup_alter_ne by done. by rewrite lookup_insert_ne.
Qed.

Lemma rateLimiter_store_ok :
  store_ok σ → store_ok (rateLimiter opts req now σ).1.
Proof.
  unfold store_ok, rateLimiter, alloc, deref, push. intros Hok k1 r1.
  assert (∀ (h : gmap positive (list Z)) (m : gmap string positive) a,
            (∀ k r, m !! k = Some r → is_Some (h !! r)) →
            ∀ k0 k r, <[k0 := fresh (dom h)]> m !! k = Some r →
                      is_Some (<[fresh (dom h) := a]> h !! r)) as Hset.
  { intros h m a Hm k0 k' r'. rewrite lookup_insert. case_decide.
    - intros [= <-]. rewrite lookup_insert_eq. eauto.
    - intros Hr'. apply Hm in Hr'. rewrite lookup_insert_ne; [done|].
      by apply fresh_ref_ne. }
  destruct (requests σ !! client_key req) as [r|] eqn:Hk; simpl in *.
  - case_decide; simpl; intros Hr1.
    + eapply Hset; eauto.
    + apply lookup_alter_is_Some. eapply Hset; eauto.
  - case_decide; simpl; intros Hr1.
    + eapply Hset; [|exact Hr1]. intros k' r'. eapply Hset; eauto.
    + apply lookup_alter_is_Some. eapply Hset; [|exact Hr1].
      intros k' r'. eapply Hset; eauto.
Qed.
End one_invocation.

(** The decision is a function of the filtered array alone. *)
Lemma rateLimiter_outcome opts req now σ :
  (rateLimiter opts req now σ).2 =
  if decide (maxRequests opts ≤ Z.of_nat (length (recent_of opts req now σ)))
  then Respond 429 too_many_requests else Next.
Proof.
  case_decide as Hfull.
  - by apply rateLimiter_reject.
  - apply rateLimiter_admit. lia.
Qed.

Lemma rateLimiter_bucket opts req now σ :
  bucket (rateLimiter opts req now σ).1 (client_key req) =
  Some (if decide (maxRequests opts ≤ Z.of_nat (length (recent_of opts req now σ)))
        then recent_of opts req now σ
        else recent_of opts req now σ ++ [now]).
Proof.
  case_decide as Hfull.
  - by apply rateLimiter_reject.
  - apply rateLimiter_admit. lia.
Qed.

(** ** Histories *)

Lemma serve_one_eq opts st call :
  serve_one opts st call =
  ((rateLimiter opts call.1 call.2 st.1).1,
   st.2 ++ [{| ev_key := client_key call.1; ev_time := call.2;
               ev_outcome := (rateLimiter opts call.1 call.2 st.1).2 |}]).
Proof. unfold serve_one. by destruct (rateLimiter _ _ _ _). Qed.

Lemma serve_snoc opts calls call :
  serve opts (calls ++ [call]) = serve_one opts (serve opts calls) call.
Proof. unfold serve. by rewrite foldl_snoc. Qed.

Lemma serve_store_ok opts calls : store_ok (serve opts calls).1.
Proof.
  induction calls as [|call calls IH] using rev_ind.
  - intros k r. simpl. by rewrite lookup_empty.
  - rewrite serve_snoc, serve_one_eq. simpl. by apply rateLimiter_store_ok.
Qed.

Lemma admitted_snoc k log e :
  admitted k (log ++ [e]) =
  admitted k log ++
    (if decide (ev_key e = k ∧ ev_outcome e = Next) then [ev_time e] else []).
Proof.
  unfold admitted. rewrite omap_app. f_equal. simpl. unfold admitted_at.
  by case_decide.
Qed.

Lemma stored_bucket σ k l : bucket σ k = Some l → stored σ k = l.
Proof. unfold stored. by intros ->. Qed.

(** What serving one more request does to the array of each key and to
    the admitted instants of each key. *)
Lemma serve_snoc_cases opts calls req now :
  let st := serve opts calls in
  let st' := serve opts (calls ++ [(req, now)]) in
  let k0 := client_key req in
  let recent := filter (fresh_enough opts now) (stored st.1 k0) in
  (∀ k, k ≠ k0 →
     stored st'.1 k = stored st.1 k ∧ admitted k st'.2 = admitted k st.2) ∧
  ((maxRequests opts ≤ Z.of_nat (length recent) ∧
    stored st'.1 k0 = recent ∧ admitted k0 st'.2 = admitted k0 st.2) ∨
   (Z.of_nat (length recent) < maxRequests opts ∧
    stored st'.1 k0 = recent ++ [now] ∧
    admitted k0 st'.2 = admitted k0 st.2 ++ [now])).
Proof.
  intros st st' k0 recent. subst st'.
  rewrite serve_snoc, serve_one_eq. fold st. simpl. split.
  - intros k Hk. split.
    + unfold stored. rewrite rateLimiter_frame; [done| |done].
      apply serve_store_ok.
    + rewrite admitted_snoc. simpl.
      rewrite decide_False; [|intros [Heq _]; by apply Hk].
      by rewrite app_nil_r.
  - destruct (decide (maxRequests opts ≤ Z.of_nat (length recent))) as [Hfull|Hroom].
    + left. destruct (rateLimiter_reject opts req now st.1 Hfull) as [Ho Hb].
      split_and!; [done|by apply stored_bucket|].
      rewrite admitted_snoc. simpl. rewrite Ho.
      rewrite decide_False; [|intros [_ Habs]; discriminate].
      by rewrite app_nil_r.
    + right. assert (Z.of_nat (length recent) < maxRequests opts) as Hlt by lia.
      destruct (rateLimiter_admit opts req now st.1 Hlt) as [Ho Hb].
      split_and!; [done|by apply stored_bucket|].
      rewrite admitted_snoc. simpl. rewrite Ho. by rewrite decide_True.
Qed.

Lemma times_snoc calls req now : times (calls ++ [(req, now)]) = times calls ++ [now].
Proof. unfold times. by rewrite fmap_app. Qed.

(** Admitted instants are clock readings of the history. *)
Lemma admitted_times opts calls k t :
  t ∈ admitted k (serve opts calls).2 → t ∈ times calls.
Proof.
  revert t. induction calls as [|[req now] calls IH] using rev_ind; intros t.
  - simpl. by intros ?%elem_of_nil.
  - rewrite times_snoc, elem_of_app.
    destruct (serve_snoc_cases opts calls req now) as [Hother Hsame].
    destruct (decide (k = client_key req)) as [->|Hne].
    + destruct Hsame as [(_ & _ & ->)|(_ & _ & ->)].
      * intros Ht%IH. by left.
      * rewrite elem_of_app. intros [Ht%IH|Ht]; [by left|by right].
    + destruct (Hother k Hne) as [_ ->]. intros Ht%IH. by left.
Qed.

Example three_then_reject :
  outcomes {| windowInSeconds := 60; maxRequests := 3 |}
    [(from "10.0.0.1", 1700000000000); (from "10.0.0.1", 1700000000001);
     (from "10.0.0.1", 1700000000002); (from "10.0.0.1", 1700000000003)]
  = [Next; Next; Next; Respond 429 too_many_requests].
Proof. vm_compute. reflexivity. Qed.

(** ** The sliding window over a history *)

(** A later filter subsumes an earlier one: what is fresh enough at
    [now] was fresh enough at every earlier instant. *)
Lemma fresh_enough_earlier opts t now x :
  t ≤ now → fresh_enough opts now x → fresh_enough opts t x.
Proof. unfold fresh_enough. lia. Qed.

Lemma filter_fresh_enough_twice opts t now (l : list Z) :
  t ≤ now →
  filter (fresh_enough opts now) (filter (fresh_enough opts t) l) =
  filter (fresh_enough opts now) l.
Proof.
  intros Hle. apply list_filter_filter_l. intros x.
  by apply fresh_enough_earlier.
Qed.

Lemma length_filter_mono {A} (P Q : A → Prop)
    `{!∀ x, Decision (P x), !∀ x, Decision (Q x)} (l : list A) :
  (∀ x, x ∈ l → P x → Q x) →
  (length (filter P l) ≤ length (filter Q l))%nat.
Proof.
  induction l as [|a l IH]; intros HPQ; [done|].
  assert (length (filter P l) ≤ length (filter Q l))%nat as IH'.
  { apply IH. intros x Hx. apply HPQ. by right. }
  rewrite !filter_cons. destruct (decide (P a)) as [HP|HP].
  - rewrite decide_True by (apply HPQ; [by left|done]). simpl. lia.
  - destruct (decide (Q a)); simpl; lia.
Qed.

Lemma clock_monotone_snoc calls req now :
  clock_monotone (calls ++ [(req, now)]) →
  clock_monotone calls ∧ Forall (λ t, t ≤ now) (times calls).
Proof.
  unfold clock_monotone. rewrite times_snoc, StronglySorted_app.
  intros (Hle & Hcalls & _). split; [done|].
  apply Forall_forall. intros t Ht. apply Hle; [done|by left].
Qed.

(** Under a monotone clock, the array of a key and the admitted instants
    of that key agree on everything a present or future filter keeps. *)
Lemma stored_tracks_admitted opts calls k now :
  clock_monotone calls →
  Forall (λ t, t ≤ now) (times calls) →
  filter (fresh_enough opts now) (stored (serve opts calls).1 k) =
  filter (fresh_enough opts now) (admitted k (serve opts calls).2).
Proof.
  revert now. induction calls as [|[req t] calls IH] using rev_ind;
    intros now Hmono Hpast; [done|].
  apply clock_monotone_snoc in Hmono as [Hmono Hbefore].
  rewrite times_snoc, Forall_app, Forall_singleton in Hpast.
  destruct Hpast as [Hpast Ht].
  destruct (serve_snoc_cases opts calls req t) as [Hother Hsame].
  destruct (decide (k = client_key req)) as [->|Hne].
  - destruct Hsame as [(_ & -> & ->)|(_ & -> & ->)].
    + rewrite filter_fresh_enough_twice by done. by apply IH.
    + rewrite !filter_app, filter_fresh_enough_twice by done.
      f_equal. by apply IH.
  - destruct (Hother k Hne) as [-> ->]. by apply IH.
Qed.

(** An admitted instant that lies in a window together with a later
    clock reading [now] is kept by the filter at [now], provided it is
    at least [windowInSeconds] milliseconds past the epoch. *)
Lemma in_window_fresh_enough opts e now x :
  windowInSeconds opts ≤ x → x ≤ now →
  in_window opts e now → in_window opts e x → fresh_enough opts now x.
Proof. unfold in_window, fresh_enough. lia. Qed.

Lemma quota_in_window opts calls k e :
  0 ≤ maxRequests opts →
  clock_monotone calls →
  Forall (λ t, windowInSeconds opts ≤ t) (times calls) →
  Z.of_nat (admitted_in_window opts k e (serve opts calls).2) ≤ maxRequests opts.
Proof.
  intros Hmax. unfold admitted_in_window.
  induction calls as [|[req t] calls IH] using rev_ind; intros Hmono Hepoch.
  - simpl. lia.
  - pose proof Hmono as Hmono'.
    apply clock_monotone_snoc in Hmono' as [Hcalls Hbefore].
    rewrite times_snoc, Forall_app, Forall_singleton in Hepoch.
    destruct Hepoch as [Hepoch Ht].
    destruct (serve_snoc_cases opts calls req t) as [Hother Hsame].
    destruct (decide (k = client_key req)) as [->|Hne];
      [|destruct (Hother k Hne) as [_ ->]; by apply IH].
    destruct Hsame as [(_ & _ & ->)|(Hroom & _ & ->)]; [by apply IH|].
    rewrite filter_app, length_app, filter_singleton; [|exact []].
    destruct (decide (in_window opts e t)) as [Hin|Hout]; simpl;
      [|specialize (IH Hcalls Hepoch); lia].
    set (k0 := client_key req) in *.
    assert (length (filter (in_window opts e) (admitted k0 (serve opts calls).2))
            ≤ length (filter (fresh_enough opts t)
                        (admitted k0 (serve opts calls).2)))%nat as Hle.
    { apply length_filter_mono. intros x Hx%admitted_times Hwin.
      rewrite Forall_forall in Hepoch, Hbefore.
      apply (in_window_fresh_enough opts e); auto. }
    rewrite <- stored_tracks_admitted in Hle by done.
    lia.
Qed.

(** ** Clocks on which the filter never removes anything *)

(** Readings between [lo] and [1000 * lo] milliseconds past the epoch:
    with [lo = 10^12] that is any date from 2001 on for the next 31000
    years. *)
Lemma epoch_clock_always_fresh opts lo ts :
  0 < windowInSeconds opts →
  Forall (λ t, lo ≤ t ≤ 1000 * lo) ts →
  always_fresh opts ts.
Proof.
  rewrite Forall_forall. intros HW Hts t now Ht Hnow.
  apply Hts in Ht, Hnow. unfold fresh_enough. lia.
Qed.

Lemma filter_keeps_all {A} (P : A → Prop) `{!∀ x, Decision (P x)} (l : list A) :
  (∀ x, x ∈ l → P x) → filter P l = l.
Proof.
  induction l as [|a l IH]; intros HP; [done|].
  rewrite filter_cons_True by (apply HP; by left).
  f_equal. apply IH. intros x Hx. apply HP. by right.
Qed.

Lemma always_fresh_snoc opts ts now :
  always_fresh opts (ts ++ [now]) →
  always_fresh opts ts ∧ ∀ t, t ∈ ts → fresh_enough opts now t.
Proof.
  intros H. split.
  - intros t n Ht Hn. apply H; apply elem_of_app; by left.
  - intros t Ht. apply H; apply elem_of_app; [by left|right; by left].
Qed.

(** On such a clock the array of a key is the list of all instants at
    which the key was ever admitted. *)
Lemma stored_all_admitted opts calls k :
  always_fresh opts (times calls) →
  stored (serve opts calls).1 k = admitted k (serve opts calls).2.
Proof.
  revert k. induction calls as [|[req t] calls IH] using rev_ind;
    intros k Hfresh; [done|].
  rewrite times_snoc in Hfresh.
  apply always_fresh_snoc in Hfresh as [Hcalls Ht].
  destruct (serve_snoc_cases opts calls req t) as [Hother Hsame].
  assert (filter (fresh_enough opts t) (stored (serve opts calls).1 (client_key req))
          = stored (serve opts calls).1 (client_key req)) as Hkeep.
  { apply filter_keeps_all. intros x Hx. apply Ht.
    rewrite (IH _ Hcalls) in Hx. by apply admitted_times in Hx. }
  rewrite Hkeep in Hsame.
  destruct (decide (k = client_key req)) as [->|Hne].
  - destruct Hsame as [(_ & -> & ->)|(_ & -> & ->)]; rewrite (IH _ Hcalls); done.
  - destruct (Hother k Hne) as [-> ->]. by apply IH.
Qed.

(** Once the filter can no longer remove anything, a key that has used
    up its quota is rejected whatever the clock reads. *)
Lemma full_bucket_rejects opts calls req now :
  always_fresh opts (times (calls ++ [(req, now)])) →
  maxRequests opts ≤
    Z.of_nat (length (admitted (client_key req) (serve opts calls).2)) →
  recent_of opts req now (serve opts calls).1 =
    admitted (client_key req) (serve opts calls).2 ∧
  (rateLimiter opts req now (serve opts calls).1).2 = Respond 429 too_many_requests.
Proof.
  rewrite times_snoc. intros [Hcalls Hnow]%always_fresh_snoc Hfull.
  assert (recent_of opts req now (serve opts calls).1 =
          admitted (client_key req) (serve opts calls).2) as Hrecent.
  { unfold recent_of. rewrite stored_all_admitted by done.
    apply filter_keeps_all. intros x Hx%admitted_times. by apply Hnow. }
  split; [done|]. apply rateLimiter_reject. by rewrite Hrecent.
Qed.

(** [n] requests of one key at the same instant [T], [n] within the
    quota, are all admitted. *)
Lemma burst_admitted opts req T (n : nat) :
  Z.of_nat n ≤ maxRequests opts →
  0 < windowInSeconds opts → 0 ≤ T →
  admitted (client_key req) (serve opts (replicate n (req, T))).2 = replicate n T.
Proof.
  intros Hn HW HT. induction n as [|n IH]; [done|].
  rewrite !replicate_S_end.
  assert (always_fresh opts (times (replicate n (req, T)))) as Hfresh.
  { intros t now Ht Hnow. unfold times in *.
    rewrite fmap_replicate in Ht, Hnow.
    apply elem_of_replicate in Ht as [-> _], Hnow as [-> _].
    unfold fresh_enough. simpl. lia. }
  destruct (serve_snoc_cases opts (replicate n (req, T)) req T) as [_ Hsame].
  rewrite (stored_all_admitted _ _ _ Hfresh), IH in Hsame by lia.
  destruct Hsame as [(Hfull & _)|(_ & _ & ->)].
  - pose proof (length_filter (fresh_enough opts T) (replicate n T)) as Hlen.
    rewrite length_replicate in Hlen. lia.
  - done.
Qed.

(** * The claims *)

(** C1 (amended): with positive options, a clock that never runs
    backwards and reads at least [windowInSeconds] milliseconds past the
    epoch, the requests of a key admitted within any trailing window of
    [windowInSeconds] seconds number at most [maxRequests], whatever
    requests of whatever keys the limiter has served. *)
Theorem quota_invariant opts calls k e :
  0 < windowInSeconds opts →
  0 < maxRequests opts →
  clock_monotone calls →
  Forall (λ t, windowInSeconds opts ≤ t) (times calls) →
  Z.of_nat (admitted_in_window opts k e (serve opts calls).2) ≤ maxRequests opts.
Proof. intros _ Hmax Hmono Hepoch. apply quota_in_window; [lia|done..]. Qed.

Lemma quota_invariant_witness :
  clock_monotone four_quick_calls ∧
  Forall (λ t, windowInSeconds two_per_minute ≤ t) (times four_quick_calls) ∧
  Z.of_nat (admitted_in_window two_per_minute "203.0.113.7" (T0 + 3)
              (serve two_per_minute four_quick_calls).2) ≤ 2.
Proof.
  assert (clock_monotone four_quick_calls) as Hmono.
  { unfold clock_monotone. simpl. repeat constructor; unfold T0; lia. }
  assert (Forall (λ t, windowInSeconds two_per_minute ≤ t)
            (times four_quick_calls)) as Hepoch.
  { simpl. repeat constructor; unfold T0; simpl; lia. }
  split_and!; [done|done|].
  apply (quota_invariant two_per_minute four_quick_calls "203.0.113.7" (T0 + 3));
    [simpl; lia|simpl; lia|done|done].
Defined.

(** C1 (counterexample): without an assumption on the clock the quota
    does not hold.  The limiter takes the time from the wall clock and
    has nothing that orders the readings: with two requests allowed per
    minute, after a jump of the clock ahead and back a client is
    admitted at [T0], [T0 + 1] and [T0 + 2], three times within two
    milliseconds. *)
Lemma quota_backwards_clock :
  0 < windowInSeconds two_per_minute ∧
  0 < maxRequests two_per_minute ∧
  outcomes two_per_minute jump_and_back = [Next; Next; Next; Next] ∧
  ¬ (Z.of_nat (admitted_in_window two_per_minute (client_key client) (T0 + 2)
                 (serve two_per_minute jump_and_back).2)
     ≤ maxRequests two_per_minute).
Proof.
  split_and!; [reflexivity|reflexivity|by vm_compute|].
  assert (admitted_in_window two_per_minute (client_key client) (T0 + 2)
            (serve two_per_minute jump_and_back).2 = 3%nat) as ->
    by (vm_compute; reflexivity).
  simpl. lia.
Qed.

(** The bound on the readings in C1 is needed as well: in the first
    [windowInSeconds] milliseconds after the epoch an entry can be
    removed while it is still inside the window. *)
Lemma quota_near_epoch :
  let opts := {| windowInSeconds := 60; maxRequests := 1 |} in
  outcomes opts [(client, 1); (client, 1060)] = [Next; Next] ∧
  admitted_in_window opts "203.0.113.7" 1060
    (serve opts [(client, 1); (client, 1060)]).2 = 2%nat.
Proof. vm_compute. done. Qed.

(** C2 (as the code behaves): with the service's options, 100 requests
    of one client admitted at [T0] and a further request of that client
    at [T0 + 60 * 1000 + 1]; the specification wants the last one
    admitted, the middleware answers it with 429. *)
Theorem window_expiry_rejected :
  outcomes service_options burst_then_wait =
    replicate 100 Next ++ [Respond 429 too_many_requests].
Proof. vm_compute. reflexivity. Qed.

(** C3 (as the code behaves): the array of the client holds [T0]; at the
    clock reading [T0 + 60001] the filter of the middleware keeps [T0],
    although the age of [T0] is not below the window in milliseconds. *)
Theorem pruning_keeps_stale_entry :
  let σ := (serve service_options [(client, T0)]).1 in
  let now := T0 + 60 * 1000 + 1 in
  stored σ (client_key client) = [T0] ∧
  recent_of service_options client now σ = [T0] ∧
  ¬ spec_fresh_enough service_options now T0.
Proof. vm_compute. split_and!; [done|done|]. intros H. discriminate H. Qed.

(** What the filter of the middleware does keep, for every store and
    clock reading: the stored timestamps [t] with
    [now - t * 1000 < windowInSeconds]. *)
Lemma filter_rule opts req now σ (t : Z) :
  t ∈ recent_of opts req now σ ↔
  t ∈ stored σ (client_key req) ∧ now - t * 1000 < windowInSeconds opts.
Proof.
  unfold recent_of. rewrite list_elem_of_filter. unfold fresh_enough. tauto.
Qed.

(** C4 (as the code behaves): after the decision at [T0 + 60001] the
    registry still holds [T0] for the client, whose age at that instant
    is not below the window. *)
Theorem registry_holds_stale_entry :
  let now := T0 + 60 * 1000 + 1 in
  let σ := (serve service_options two_far_apart).1 in
  stored σ (client_key client) = [T0; now] ∧
  ¬ Forall (spec_fresh_enough service_options now) (stored σ (client_key client)).
Proof.
  intros now σ.
  assert (stored σ (client_key client) = [T0; now]) as ->
    by (vm_compute; reflexivity).
  split; [done|]. intros [H1 _]%Forall_cons.
  vm_compute in H1. discriminate H1.
Qed.

(** C5: when the filtered array is shorter than [maxRequests], [next()]
    is called and the registry holds, under the client key, the filtered
    array with [now] appended. *)
Theorem admit_path opts req now σ :
  Z.of_nat (length (recent_of opts req now σ)) < maxRequests opts →
  (rateLimiter opts req now σ).2 = Next ∧
  bucket (rateLimiter opts req now σ).1 (client_key req) =
    Some (recent_of opts req now σ ++ [now]).
Proof. apply rateLimiter_admit. Qed.

Lemma admit_path_witness :
  Z.of_nat (length (recent_of service_options client (T0 + 5)
                      (serve service_options [(client, T0)]).1)) <
    maxRequests service_options ∧
  (rateLimiter service_options client (T0 + 5)
     (serve service_options [(client, T0)]).1).2 = Next ∧
  bucket (rateLimiter service_options client (T0 + 5)
            (serve service_options [(client, T0)]).1).1 (client_key client) =
    Some (recent_of service_options client (T0 + 5)
            (serve service_options [(client, T0)]).1 ++ [T0 + 5]).
Proof.
  assert (Z.of_nat (length (recent_of service_options client (T0 + 5)
                      (serve service_options [(client, T0)]).1)) <
          maxRequests service_options) as Hroom by (vm_compute; reflexivity).
  split; [done|].
  exact (admit_path service_options client (T0 + 5)
           (serve service_options [(client, T0)]).1 Hroom).
Defined.

(** C6: when the filtered array has [maxRequests] entries or more, the
    middleware responds instead of calling [next()], and the registry
    holds, under the client key, the filtered array with nothing
    appended. *)
Theorem reject_path opts req now σ :
  maxRequests opts ≤ Z.of_nat (length (recent_of opts req now σ)) →
  (rateLimiter opts req now σ).2 ≠ Next ∧
  bucket (rateLimiter opts req now σ).1 (client_key req) =
    Some (recent_of opts req now σ).
Proof.
  intros Hfull. destruct (rateLimiter_reject opts req now σ Hfull) as [-> ->].
  done.
Qed.

Lemma reject_path_witness :
  maxRequests one_per_minute ≤
    Z.of_nat (length (recent_of one_per_minute client (T0 + 5)
                        (serve one_per_minute [(client, T0)]).1)) ∧
  (rateLimiter one_per_minute client (T0 + 5)
     (serve one_per_minute [(client, T0)]).1).2 ≠ Next ∧
  bucket (rateLimiter one_per_minute client (T0 + 5)
            (serve one_per_minute [(client, T0)]).1).1 (client_key client) =
    Some (recent_of one_per_minute client (T0 + 5)
            (serve one_per_minute [(client, T0)]).1).
Proof.
  assert (maxRequests one_per_minute ≤
          Z.of_nat (length (recent_of one_per_minute client (T0 + 5)
                              (serve one_per_minute [(client, T0)]).1)))
    as Hfull by (vm_compute; discriminate).
  split; [done|].
  exact (reject_path one_per_minute client (T0 + 5)
           (serve one_per_minute [(client, T0)]).1 Hfull).
Defined.

(** C7: whenever the middleware does not call [next()], it responds
    with status 429 and the bare JSON string [Too many requests]. *)
Theorem rejection_payload opts req now σ :
  (rateLimiter opts req now σ).2 ≠ Next →
  (rateLimiter opts req now σ).2 = Respond 429 (JString "Too many requests").
Proof. rewrite rateLimiter_outcome. by case_decide. Qed.

Lemma rejection_payload_witness :
  (rateLimiter one_per_minute client (T0 + 5)
     (serve one_per_minute [(client, T0)]).1).2 ≠ Next ∧
  (rateLimiter one_per_minute client (T0 + 5)
     (serve one_per_minute [(client, T0)]).1).2 =
    Respond 429 (JString "Too many requests").
Proof.
  assert ((rateLimiter one_per_minute client (T0 + 5)
             (serve one_per_minute [(client, T0)]).1).2 ≠ Next) as Hrej
    by (vm_compute; discriminate).
  split; [done|].
  exact (rejection_payload one_per_minute client (T0 + 5)
           (serve one_per_minute [(client, T0)]).1 Hrej).
Defined.

(** C8: in a state the limiter can reach, a request of key A leaves the
    registry entry of a different key B as it was; the decision on a
    following request of B, and the entry it leaves for B, are the same
    as if the request of A had not been served. *)
Theorem independent_buckets opts calls reqA nowA reqB nowB :
  client_key reqA ≠ client_key reqB →
  let σ := (serve opts calls).1 in
  let σ' := (rateLimiter opts reqA nowA σ).1 in
  bucket σ' (client_key reqB) = bucket σ (client_key reqB) ∧
  (rateLimiter opts reqB nowB σ').2 = (rateLimiter opts reqB nowB σ).2 ∧
  bucket (rateLimiter opts reqB nowB σ').1 (client_key reqB) =
    bucket (rateLimiter opts reqB nowB σ).1 (client_key reqB).
Proof.
  intros Hne σ σ'.
  assert (bucket σ' (client_key reqB) = bucket σ (client_key reqB)) as Hframe.
  { apply rateLimiter_frame; [apply serve_store_ok|congruence]. }
  assert (recent_of opts reqB nowB σ' = recent_of opts reqB nowB σ) as Hrecent.
  { unfold recent_of, stored. by rewrite Hframe. }
  split_and!; [done| |].
  - by rewrite !rateLimiter_outcome, Hrecent.
  - by rewrite !rateLimiter_bucket, Hrecent.
Qed.

Lemma independent_buckets_witness :
  client_key client ≠ client_key other_client ∧
  let σ := (serve one_per_minute [(other_client, T0)]).1 in
  let σ' := (rateLimiter one_per_minute client (T0 + 1) σ).1 in
  bucket σ' (client_key other_client) = bucket σ (client_key other_client) ∧
  (rateLimiter one_per_minute other_client (T0 + 2) σ').2 =
    (rateLimiter one_per_minute other_client (T0 + 2) σ).2 ∧
  bucket (rateLimiter one_per_minute other_client (T0 + 2) σ').1
      (client_key other_client) =
    bucket (rateLimiter one_per_minute other_client (T0 + 2) σ).1
      (client_key other_client).
Proof.
  assert (client_key client ≠ client_key other_client) as Hne
    by (vm_compute; discriminate).
  split; [done|].
  exact (independent_buckets one_per_minute [(other_client, T0)]
           client (T0 + 1) other_client (T0 + 2) Hne).
Defined.

(** C9: a request whose [req.ip] is absent or empty is not refused for
    that: it is handled under the fixed key [unknown], exactly as a
    request whose address is the string [unknown].  The decision is the
    usual one, taken on the array of the bucket [unknown], and its
    result is recorded in that bucket; the next request without address
    is decided on what this one has left there, so that all of them
    draw on one quota. *)
Theorem missing_ip_fallback opts req now σ :
  ip req = None ∨ ip req = Some "" →
  let recent := filter (fresh_enough opts now) (stored σ "unknown") in
  let σ' := (rateLimiter opts req now σ).1 in
  client_key req = "unknown" ∧
  rateLimiter opts req now σ = rateLimiter opts (from "unknown") now σ ∧
  (rateLimiter opts req now σ).2 =
    (if decide (maxRequests opts ≤ Z.of_nat (length recent))
     then Respond 429 too_many_requests else Next) ∧
  bucket σ' "unknown" =
    Some (if decide (maxRequests opts ≤ Z.of_nat (length recent))
          then recent else recent ++ [now]) ∧
  ∀ req' now',
    ip req' = None ∨ ip req' = Some "" →
    (rateLimiter opts req' now' σ').2 =
      (if decide (maxRequests opts ≤
                  Z.of_nat (length (filter (fresh_enough opts now')
                                      (if decide (maxRequests opts ≤
                                                  Z.of_nat (length recent))
                                       then recent else recent ++ [now]))))
       then Respond 429 too_many_requests else Next).
Proof.
  assert (∀ r, ip r = None ∨ ip r = Some "" → client_key r = "unknown") as Hkeys.
  { intros r Hr. unfold client_key. by destruct Hr as [-> | ->]. }
  intros Hip recent σ'. pose proof (Hkeys req Hip) as Hkey.
  assert (recent_of opts req now σ = recent) as Hrecent
    by (unfold recent_of; by rewrite Hkey).
  assert (bucket σ' "unknown" =
          Some (if decide (maxRequests opts ≤ Z.of_nat (length recent))
                then recent else recent ++ [now])) as Hbucket.
  { pose proof (rateLimiter_bucket opts req now σ) as Hb.
    by rewrite Hkey, Hrecent in Hb. }
  split_and!; [done| | |done|].
  - unfold rateLimiter. by rewrite Hkey.
  - by rewrite rateLimiter_outcome, Hrecent.
  - intros req' now' Hip'. rewrite rateLimiter_outcome.
    unfold recent_of, stored. by rewrite (Hkeys req' Hip'), Hbucket.
Qed.

Lemma missing_ip_fallback_witness :
  (ip no_address = None ∨ ip no_address = Some "") ∧
  client_key no_address = "unknown" ∧
  (rateLimiter one_per_minute no_address T0 new_store).2 = Next ∧
  bucket (rateLimiter one_per_minute no_address T0 new_store).1 "unknown" =
    Some [T0] ∧
  (rateLimiter one_per_minute {| ip := Some "" |} (T0 + 1)
     (rateLimiter one_per_minute no_address T0 new_store).1).2 =
    Respond 429 too_many_requests.
Proof.
  assert (ip no_address = None ∨ ip no_address = Some "") as Hip
    by (left; reflexivity).
  assert (ip {| ip := Some "" |} = None ∨ ip {| ip := Some "" |} = Some "")
    as Hip' by (right; reflexivity).
  destruct (missing_ip_fallback one_per_minute no_address T0 new_store Hip)
    as (Hkey & _ & Hout & Hbucket & Hnext).
  split_and!; [done|done|exact Hout|exact Hbucket|].
  exact (Hnext {| ip := Some "" |} (T0 + 1) Hip').
Defined.

(** C10: on a clock all of whose readings pass the filter (as every
    [Date.now()] reading does: [time * 1000] exceeds [now] by far), the
    filter removes nothing, the array of the key is the list of all
    instants at which the key was ever admitted, and a request of a key
    that has been admitted [maxRequests] times is answered with 429 at
    whatever clock reading it arrives. *)
Theorem permanent_lockout opts calls req now :
  always_fresh opts (times (calls ++ [(req, now)])) →
  let σ := (serve opts calls).1 in
  let k := client_key req in
  recent_of opts req now σ = stored σ k ∧
  stored σ k = admitted k (serve opts calls).2 ∧
  (maxRequests opts ≤ Z.of_nat (length (admitted k (serve opts calls).2)) →
   (rateLimiter opts req now σ).2 = Respond 429 too_many_requests).
Proof.
  intros Hfresh σ k.
  pose proof Hfresh as Hfresh'. rewrite times_snoc in Hfresh'.
  apply always_fresh_snoc in Hfresh' as [Hcalls Hnow].
  assert (stored σ k = admitted k (serve opts calls).2) as Hstored
    by by apply stored_all_admitted.
  split_and!; [|done|].
  - unfold recent_of. fold σ k. apply filter_keeps_all.
    intros x Hx. apply Hnow. rewrite Hstored in Hx.
    by apply admitted_times in Hx.
  - intros Hfull. by apply full_bucket_rejects.
Qed.

Lemma permanent_lockout_witness :
  always_fresh one_per_minute
    (times ([(client, T0)] ++ [(client, a_century_later)])) ∧
  maxRequests one_per_minute ≤
    Z.of_nat (length (admitted (client_key client)
                        (serve one_per_minute [(client, T0)]).2)) ∧
  (rateLimiter one_per_minute client a_century_later
     (serve one_per_minute [(client, T0)]).1).2 = Respond 429 too_many_requests.
Proof.
  assert (always_fresh one_per_minute
            (times ([(client, T0)] ++ [(client, a_century_later)]))) as Hfresh.
  { apply (epoch_clock_always_fresh _ (10 ^ 12)); [reflexivity|].
    repeat constructor; vm_compute; discriminate. }
  assert (maxRequests one_per_minute ≤
          Z.of_nat (length (admitted (client_key client)
                              (serve one_per_minute [(client, T0)]).2))) as Hfull
    by (vm_compute; discriminate).
  split_and!; [done|done|].
  exact (proj2 (proj2 (permanent_lockout one_per_minute [(client, T0)]
                         client a_century_later Hfresh)) Hfull).
Defined.

(** * Further properties of the limiter *)

(** ** What the registry holds *)

Lemma sublist_StronglySorted {A} (R : relation A) (l1 l2 : list A) :
  l1 `sublist_of` l2 → StronglySorted R l2 → StronglySorted R l1.
Proof.
  induction 1 as [|x l1 l2 Hsub IH|x l1 l2 Hsub IH]; [done| |].
  - rewrite !StronglySorted_cons. intros [Hx Hl2]. split; [|by apply IH].
    rewrite Forall_forall in *. intros y Hy. apply Hx.
    by eapply elem_of_sublist.
  - rewrite StronglySorted_cons. intros [_ Hl2]. by apply IH.
Qed.

Lemma stored_new k : stored new_store k = [].
Proof. unfold stored, bucket. simpl. by rewrite lookup_empty. Qed.

Lemma stored_sublist opts calls k :
  stored (serve opts calls).1 k `sublist_of` admitted k (serve opts calls).2.
Proof.
  induction calls as [|[req t] calls IH] using rev_ind; [done|].
  destruct (serve_snoc_cases opts calls req t) as [Hother Hsame].
  destruct (decide (k = client_key req)) as [->|Hne].
  - destruct Hsame as [(_ & -> & ->)|(_ & -> & ->)].
    + etrans; [apply sublist_filter|done].
    + apply sublist_app; [|done]. etrans; [apply sublist_filter|done].
  - by destruct (Hother k Hne) as [-> ->].
Qed.

Lemma admitted_sorted opts calls k :
  clock_monotone calls → StronglySorted Z.le (admitted k (serve opts calls).2).
Proof.
  induction calls as [|[req t] calls IH] using rev_ind; intros Hmono.
  - constructor.
  - apply clock_monotone_snoc in Hmono as [Hcalls Hbefore].
    destruct (serve_snoc_cases opts calls req t) as [Hother Hsame].
    destruct (decide (k = client_key req)) as [->|Hne].
    + destruct Hsame as [(_ & _ & ->)|(_ & _ & ->)]; [by apply IH|].
      apply StronglySorted_app; split_and!; [|by apply IH|repeat constructor].
      intros x y Hx%admitted_times ->%list_elem_of_singleton.
      rewrite Forall_forall in Hbefore. by apply Hbefore.
    + destruct (Hother k Hne) as [_ ->]. by apply IH.
Qed.

(** X1: whatever the clock does, the array the registry holds for a key
    is a subsequence of the instants at which requests of that key were
    admitted: rejected attempts and other keys' requests never get in. *)
Theorem registry_holds_admitted_only opts calls k :
  stored (serve opts calls).1 k `sublist_of` admitted k (serve opts calls).2.
Proof. apply stored_sublist. Qed.

(** X2: under a clock that never runs backwards, the array of every key
    is in chronological order. *)
Theorem registry_chronological opts calls k :
  clock_monotone calls →
  StronglySorted Z.le (stored (serve opts calls).1 k).
Proof.
  intros Hmono. eapply sublist_StronglySorted; [apply stored_sublist|].
  by apply admitted_sorted.
Qed.

Lemma registry_chronological_witness :
  clock_monotone four_quick_calls ∧
  StronglySorted Z.le
    (stored (serve two_per_minute four_quick_calls).1 (client_key client)).
Proof.
  assert (clock_monotone four_quick_calls) as Hmono.
  { unfold clock_monotone. simpl. repeat constructor; unfold T0; lia. }
  split; [done|].
  exact (registry_chronological two_per_minute four_quick_calls
           (client_key client) Hmono).
Defined.

(** X3: in every state the limiter reaches, and whatever the clock does,
    the array of a key has at most [maxRequests] entries (none when
    [maxRequests] is not positive). *)
Theorem bucket_bounded opts calls k :
  Z.of_nat (length (stored (serve opts calls).1 k)) ≤ Z.max 0 (maxRequests opts).
Proof.
  induction calls as [|[req t] calls IH] using rev_ind.
  { change (serve opts []).1 with new_store. rewrite stored_new. simpl. lia. }
  destruct (serve_snoc_cases opts calls req t) as [Hother Hsame].
  destruct (decide (k = client_key req)) as [->|Hne].
  - pose proof (length_filter (fresh_enough opts t)
                  (stored (serve opts calls).1 (client_key req))) as Hlen.
    destruct Hsame as [(_ & -> & _)|(Hroom & -> & _)].
    + lia.
    + rewrite length_app. simpl. lia.
  - by destruct (Hother k Hne) as [-> _].
Qed.

(** X4: the registry has an entry for exactly the keys that have been
    served, admitted or not; an entry is never removed. *)
Theorem registry_keys opts calls k :
  is_Some (bucket (serve opts calls).1 k) ↔ k ∈ keys_of calls.
Proof.
  unfold keys_of.
  induction calls as [|[req t] calls IH] using rev_ind.
  - simpl. unfold bucket. simpl. rewrite lookup_empty. simpl.
    split; [by intros [? ?]|by intros ?%elem_of_nil].
  - rewrite fmap_app, elem_of_app, <- IH. simpl.
    rewrite list_elem_of_singleton, serve_snoc, serve_one_eq. simpl.
    destruct (decide (k = client_key req)) as [->|Hne].
    + rewrite rateLimiter_bucket. split; [by right|eauto].
    + rewrite rateLimiter_frame by (apply serve_store_ok || done).
      split; [by left|by intros [?|?]].
Qed.

(** ** The limiter as a counter *)

Lemma requests_of_snoc k calls req now :
  requests_of k (calls ++ [(req, now)]) =
  requests_of k calls ++ (if decide (client_key req = k) then [(req, now)] else []).
Proof.
  unfold requests_of. rewrite filter_app. f_equal.
Qed.

Lemma recent_all_admitted opts calls req now :
  always_fresh opts (times (calls ++ [(req, now)])) →
  recent_of opts req now (serve opts calls).1 =
  admitted (client_key req) (serve opts calls).2.
Proof.
  rewrite times_snoc. intros [Hcalls Hnow]%always_fresh_snoc.
  unfold recent_of. rewrite stored_all_admitted by done.
  apply filter_keeps_all. intros x Hx%admitted_times. by apply Hnow.
Qed.

Lemma admitted_count opts calls k :
  always_fresh opts (times calls) →
  length (admitted k (serve opts calls).2) =
  (length (requests_of k calls) `min` Z.to_nat (maxRequests opts))%nat.
Proof.
  induction calls as [|[req t] calls IH] using rev_ind; intros Hfresh; [done|].
  pose proof (recent_all_admitted opts calls req t Hfresh) as Hrecent.
  rewrite times_snoc in Hfresh. apply always_fresh_snoc in Hfresh as [Hcalls _].
  specialize (IH Hcalls).
  destruct (serve_snoc_cases opts calls req t) as [Hother Hsame].
  rewrite requests_of_snoc. unfold recent_of in Hrecent.
  destruct (decide (client_key req = k)) as [<-|Hne].
  - rewrite Hrecent in Hsame. rewrite length_app. simpl.
    destruct Hsame as [(Hfull & _ & ->)|(Hroom & _ & ->)].
    + lia.
    + rewrite length_app. simpl. lia.
  - destruct (Hother k) as [_ ->]; [congruence|]. by rewrite app_nil_r.
Qed.

(** X5: on a clock all of whose readings pass the filter, the number of
    requests of a key admitted over the whole life of the limiter is the
    number of requests of that key or [maxRequests], whichever is
    smaller: the quota is never given back. *)
Theorem lifetime_quota opts calls k :
  always_fresh opts (times calls) →
  length (admitted k (serve opts calls).2) =
  (length (requests_of k calls) `min` Z.to_nat (maxRequests opts))%nat.
Proof. apply admitted_count. Qed.

Lemma three_days_always_fresh opts :
  0 < windowInSeconds opts → always_fresh opts (times three_days).
Proof.
  intros HW. apply (epoch_clock_always_fresh _ (10 ^ 12)); [done|].
  repeat constructor; vm_compute; discriminate.
Defined.

Lemma lifetime_quota_witness :
  always_fresh two_per_minute (times three_days) ∧
  length (admitted (client_key client) (serve two_per_minute three_days).2) =
  (length (requests_of (client_key client) three_days)
     `min` Z.to_nat (maxRequests two_per_minute))%nat.
Proof.
  assert (always_fresh two_per_minute (times three_days)) as Hfresh
    by (apply three_days_always_fresh; reflexivity).
  split; [done|].
  exact (lifetime_quota two_per_minute three_days (client_key client) Hfresh).
Defined.

(** X6: on such a clock a request is admitted exactly when fewer than
    [maxRequests] requests of its key came before it, whenever they
    came and whether or not they were admitted themselves. *)
Theorem decision_counts_requests opts calls req now :
  always_fresh opts (times (calls ++ [(req, now)])) →
  (rateLimiter opts req now (serve opts calls).1).2 = Next ↔
  Z.of_nat (length (requests_of (client_key req) calls)) < maxRequests opts.
Proof.
  intros Hfresh. rewrite rateLimiter_outcome.
  rewrite (recent_all_admitted _ _ _ _ Hfresh).
  rewrite times_snoc in Hfresh. apply always_fresh_snoc in Hfresh as [Hcalls _].
  rewrite (admitted_count _ _ _ Hcalls).
  case_decide as Hfull; split; intros H; try done; lia.
Qed.

Lemma decision_counts_requests_witness :
  always_fresh two_per_minute
    (times (three_days ++ [(other_client, T0 + 4 * 86400000)])) ∧
  ((rateLimiter two_per_minute other_client (T0 + 4 * 86400000)
      (serve two_per_minute three_days).1).2 = Next ↔
   Z.of_nat (length (requests_of (client_key other_client) three_days)) <
     maxRequests two_per_minute).
Proof.
  assert (always_fresh two_per_minute
            (times (three_days ++ [(other_client, T0 + 4 * 86400000)])))
    as Hfresh.
  { apply (epoch_clock_always_fresh _ (10 ^ 12)); [reflexivity|].
    repeat constructor; vm_compute; discriminate. }
  split; [done|].
  exact (decision_counts_requests two_per_minute three_days other_client
           (T0 + 4 * 86400000) Hfresh).
Defined.

(** X7: with [maxRequests] zero or negative every request is answered
    with 429, in every state and at every clock reading. *)
Theorem no_quota_rejects_all opts req now σ :
  maxRequests opts ≤ 0 →
  (rateLimiter opts req now σ).2 = Respond 429 too_many_requests.
Proof. intros Hmax. rewrite rateLimiter_outcome. rewrite decide_True; [done|lia]. Qed.

Lemma no_quota_rejects_all_witness :
  maxRequests nothing_allowed ≤ 0 ∧
  (rateLimiter nothing_allowed client T0 new_store).2 =
    Respond 429 too_many_requests.
Proof.
  assert (maxRequests nothing_allowed ≤ 0) as Hmax by (simpl; lia).
  split; [done|].
  exact (no_quota_rejects_all nothing_allowed client T0 new_store Hmax).
Defined.

(** X8: for every options record, whenever the whole quota of a key is
    used at an instant [T] later than [windowInSeconds] milliseconds
    past the epoch, the request of that key at
    [T + windowInSeconds * 1000 + 1] is rejected. *)
Lemma window_never_expires opts req T (n : nat) :
  0 < windowInSeconds opts →
  windowInSeconds opts < T →
  Z.of_nat n = maxRequests opts →
  (rateLimiter opts req (T + windowInSeconds opts * 1000 + 1)
     (serve opts (replicate n (req, T))).1).2 = Respond 429 too_many_requests.
Proof.
  intros HW HT Hn.
  apply full_bucket_rejects.
  - rewrite times_snoc. unfold times. rewrite fmap_replicate. simpl.
    intros t now Ht Hnow. unfold fresh_enough.
    apply elem_of_app in Ht as [[-> _]%elem_of_replicate | ->%list_elem_of_singleton];
      apply elem_of_app in Hnow
        as [[-> _]%elem_of_replicate | ->%list_elem_of_singleton]; lia.
  - rewrite burst_admitted by lia. rewrite length_replicate. lia.
Qed.

Lemma window_never_expires_witness :
  0 < windowInSeconds service_options ∧
  windowInSeconds service_options < T0 ∧
  Z.of_nat 100 = maxRequests service_options ∧
  (rateLimiter service_options client
     (T0 + windowInSeconds service_options * 1000 + 1)
     (serve service_options (replicate 100 (client, T0))).1).2 =
    Respond 429 too_many_requests.
Proof.
  assert (0 < windowInSeconds service_options) as HW by reflexivity.
  assert (windowInSeconds service_options < T0) as HT by reflexivity.
  assert (Z.of_nat 100 = maxRequests service_options) as Hn by reflexivity.
  split_and!; [done..|].
  exact (window_never_expires service_options client T0 100 HW HT Hn).
Defined.

(** ** Keys do not interfere *)

(** X9: over whole histories, what a key sees (its decisions, in
    order) and what the registry holds for it are the same as if only
    the requests of that key had been served. *)
Lemma bucket_noninterference opts calls k :
  let own := requests_of k calls in
  stored (serve opts calls).1 k = stored (serve opts own).1 k ∧
  filter (λ e, ev_key e = k) (serve opts calls).2 = (serve opts own).2.
Proof.
  unfold requests_of.
  induction calls as [|[req t] calls [IHs IHl]] using rev_ind; [done|].
  simpl. rewrite filter_app, filter_singleton; [|exact []]. simpl.
  destruct (decide (client_key req = k)) as [<-|Hne].
  - rewrite !serve_snoc, !serve_one_eq. simpl.
    assert (recent_of opts req t (serve opts calls).1 =
            recent_of opts req t
              (serve opts (filter (λ c : Request * Z,
                                     client_key c.1 = client_key req) calls)).1)
      as Hrecent by (unfold recent_of; by rewrite IHs).
    split.
    + unfold stored. by rewrite !rateLimiter_bucket, Hrecent.
    + rewrite filter_app, filter_singleton; [|exact []]. simpl.
      rewrite decide_True by done.
      by rewrite IHl, !rateLimiter_outcome, Hrecent.
  - rewrite app_nil_r.
    destruct (serve_snoc_cases opts calls req t) as [Hother _].
    destruct (Hother k) as [-> _]; [congruence|]. split; [done|].
    rewrite serve_snoc, serve_one_eq. simpl.
    rewrite filter_app, filter_singleton; [|exact []]. simpl.
    rewrite decide_False by done. by rewrite app_nil_r.
Qed.

(** * The JavaScript limiter *)

Lemma rateLimiterJs_step opts req now σ :
  is_Some (js_ip req) →
  let recent := filter (js_kept now) (stored σ the_js_key) in
  ∃ σ',
    rateLimiterJs opts req now σ =
      Finished σ' (if decide (maxRequests opts ≤ Z.of_nat (length recent))
                   then Respond 429 too_many_requests else Next) ∧
    stored σ' the_js_key =
      (if decide (maxRequests opts ≤ Z.of_nat (length recent))
       then recent else recent ++ [now]).
Proof.
  intros [a Ha] recent. subst recent.
  unfold rateLimiterJs, js_key, stored, bucket, alloc, deref, push, the_js_key.
  rewrite Ha.
  destruct (requests σ !! "undefined:undefined") as [r|] eqn:Hk; simpl in *.
  - rewrite Hk. simpl. case_decide; read_maps; eexists; split; try done;
      read_maps; done.
  - read_maps. case_decide; read_maps; eexists; split; try done;
      read_maps; done.
Qed.

Lemma serveJs_snoc opts calls call :
  serveJs opts (calls ++ [call]) = serveJs_one opts (serveJs opts calls) call.
Proof. unfold serveJs. by rewrite foldl_snoc. Qed.

Lemma with_address_snoc calls req now :
  with_address (calls ++ [(req, now)]) =
  with_address calls ++ (if decide (is_Some (js_ip req)) then [(req, now)] else []).
Proof. unfold with_address. rewrite filter_app. f_equal. Qed.

Lemma admittedJs_snoc log o :
  admittedJs (log ++ [o]) =
  (admittedJs log + if decide (o = Some Next) then 1 else 0)%nat.
Proof.
  unfold admittedJs. rewrite filter_app, length_app. f_equal.
  rewrite filter_singleton; [|exact []]. by case_decide.
Qed.

Lemma never_thousandfold_snoc ts now :
  never_thousandfold (ts ++ [now]) →
  never_thousandfold ts ∧ ∀ t, t ∈ ts → js_kept now t.
Proof.
  intros H. split.
  - intros t n Ht Hn. apply H; apply elem_of_app; by left.
  - intros t Ht. apply H; apply elem_of_app; [by left|right; by left].
Qed.

(** On a clock without thousandfold readings the one array of the
    JavaScript limiter only grows, by one entry per admitted request. *)
Lemma js_counts opts calls :
  never_thousandfold calls.*2 →
  (∀ x, x ∈ stored (serveJs opts calls).1 the_js_key → x ∈ calls.*2) ∧
  length (stored (serveJs opts calls).1 the_js_key) =
    (length (with_address calls) `min` Z.to_nat (maxRequests opts))%nat ∧
  admittedJs (serveJs opts calls).2 =
    (length (with_address calls) `min` Z.to_nat (maxRequests opts))%nat.
Proof.
  induction calls as [|[req t] calls IH] using rev_ind; intros Hclock.
  - change (serveJs opts []).1 with new_store. rewrite stored_new.
    split_and!; [by intros x ?%elem_of_nil|done|done].
  - rewrite fmap_app in Hclock. simpl in Hclock.
    apply never_thousandfold_snoc in Hclock as [Hcalls Ht].
    destruct (IH Hcalls) as (Hin & Hlen & Hadm).
    rewrite serveJs_snoc, with_address_snoc, fmap_app. unfold serveJs_one.
    simpl. destruct (decide (is_Some (js_ip req))) as [Haddr|Hnone].
    + pose proof (rateLimiterJs_step opts req t (serveJs opts calls).1 Haddr)
        as Hstep.
      cbv zeta in Hstep.
      rewrite filter_keeps_all in Hstep by (intros x Hx; by apply Ht, Hin).
      destruct Hstep as (σ' & -> & Hstored).
      simpl. rewrite admittedJs_snoc, Hstored.
      destruct (decide (maxRequests opts ≤
                  Z.of_nat (length (stored (serveJs opts calls).1 the_js_key))))
        as [Hfull|Hroom].
      * rewrite length_app. simpl. split_and!.
        -- intros x Hx. apply elem_of_app. left. by apply Hin.
        -- lia.
        -- try rewrite decide_False by discriminate. lia.
      * rewrite !length_app. simpl. split_and!.
        -- intros x [Hx| ->%list_elem_of_singleton]%elem_of_app;
             apply elem_of_app; [left; by apply Hin|right; by left].
        -- lia.
        -- try rewrite decide_True by done. lia.
    + assert (rateLimiterJs opts req t (serveJs opts calls).1 = Threw) as ->.
      { unfold rateLimiterJs, js_key. destruct (js_ip req); [|done].
        exfalso. apply Hnone. eauto. }
      simpl. rewrite admittedJs_snoc, app_nil_r.
      try rewrite decide_False by discriminate.
      split_and!; [|done|simpl; lia].
      intros x Hx. apply elem_of_app. left. by apply Hin.
Qed.

(** X10: the JavaScript limiter keeps one bucket for all clients and all
    URLs.  On a clock without thousandfold readings, the number of
    requests it admits over its whole life, from whatever addresses and
    for whatever URLs, is the number of requests that carry an address
    or [maxRequests], whichever is smaller. *)
Theorem js_one_quota_for_all opts calls :
  never_thousandfold calls.*2 →
  admittedJs (serveJs opts calls).2 =
  (length (with_address calls) `min` Z.to_nat (maxRequests opts))%nat.
Proof. intros Hclock. by apply js_counts. Qed.

(** X11: a request without address makes the JavaScript limiter throw,
    at every clock reading; on a clock without thousandfold readings a
    request with an address is admitted exactly when fewer than
    [maxRequests] requests with an address came before it, from any
    client. *)
Theorem js_decision opts calls req now :
  never_thousandfold (calls ++ [(req, now)]).*2 →
  match js_ip req with
  | None => rateLimiterJs opts req now (serveJs opts calls).1 = Threw
  | Some _ =>
      ∃ σ', rateLimiterJs opts req now (serveJs opts calls).1 =
            Finished σ'
              (if decide (Z.of_nat (length (with_address calls)) < maxRequests opts)
               then Next else Respond 429 too_many_requests)
  end.
Proof.
  rewrite fmap_app. simpl. intros [Hcalls Hnow]%never_thousandfold_snoc.
  destruct (js_ip req) as [a|] eqn:Ha.
  - destruct (js_counts opts calls Hcalls) as (Hin & Hlen & _).
    assert (is_Some (js_ip req)) as Haddr by (by rewrite Ha).
    pose proof (rateLimiterJs_step opts req now (serveJs opts calls).1 Haddr)
      as Hstep.
    cbv zeta in Hstep.
    rewrite filter_keeps_all in Hstep by (intros x Hx; by apply Hnow, Hin).
    destruct Hstep as (σ' & -> & _).
    exists σ'. f_equal. rewrite Hlen. repeat case_decide; try done; lia.
  - unfold rateLimiterJs, js_key. by rewrite Ha.
Qed.

Lemma epoch_clock_never_thousandfold lo ts :
  0 < lo → Forall (λ t, lo ≤ t < 1000 * lo) ts → never_thousandfold ts.
Proof.
  rewrite Forall_forall. intros Hlo Hts t now Ht Hnow.
  apply Hts in Ht, Hnow. unfold js_kept. lia.
Qed.

Lemma js_one_quota_for_all_witness :
  never_thousandfold js_calls.*2 ∧
  admittedJs (serveJs two_per_minute js_calls).2 =
  (length (with_address js_calls) `min` Z.to_nat (maxRequests two_per_minute))%nat.
Proof.
  assert (never_thousandfold js_calls.*2) as Hclock.
  { apply (epoch_clock_never_thousandfold (10 ^ 12)); [reflexivity|].
    repeat constructor; vm_compute; discriminate. }
  split; [done|]. exact (js_one_quota_for_all two_per_minute js_calls Hclock).
Defined.

Lemma js_decision_witness :
  never_thousandfold (js_calls ++ [(js_client, T0 + 2 * 86400000)]).*2 ∧
  ∃ σ', rateLimiterJs two_per_minute js_client (T0 + 2 * 86400000)
          (serveJs two_per_minute js_calls).1 =
        Finished σ'
          (if decide (Z.of_nat (length (with_address js_calls)) <
                      maxRequests two_per_minute)
           then Next else Respond 429 too_many_requests).
Proof.
  assert (never_thousandfold
            (js_calls ++ [(js_client, T0 + 2 * 86400000)]).*2) as Hclock.
  { apply (epoch_clock_never_thousandfold (10 ^ 12)); [reflexivity|].
    repeat constructor; vm_compute; discriminate. }
  split; [done|].
  exact (js_decision two_per_minute js_calls js_client (T0 + 2 * 86400000) Hclock).
Defined.

(** ** The two limiters compared *)

Lemma readings_at_times {R} (req : R) (ts : list Z) : (at_times req ts).*2 = ts.
Proof.
  unfold at_times.
  induction ts as [|t ts IH]; [done|]. rewrite !fmap_cons. simpl. by rewrite IH.
Qed.

Lemma times_at_times req (ts : list Z) : times (at_times req ts) = ts.
Proof. apply readings_at_times. Qed.

Lemma at_times_snoc {R} (req : R) ts t :
  at_times req (ts ++ [t]) = at_times req ts ++ [(req, t)].
Proof. unfold at_times. by rewrite fmap_app. Qed.

Lemma requests_of_at_times req ts :
  requests_of (client_key req) (at_times req ts) = at_times req ts.
Proof.
  unfold requests_of. apply filter_keeps_all.
  unfold at_times. by intros c (t & -> & _)%list_elem_of_fmap.
Qed.

Lemma with_address_at_times jreq ts :
  is_Some (js_ip jreq) → with_address (at_times jreq ts) = at_times jreq ts.
Proof.
  intros Haddr. unfold with_address. apply filter_keeps_all.
  unfold at_times. by intros c (t & -> & _)%list_elem_of_fmap.
Qed.

Lemma length_at_times {R} (req : R) ts : length (at_times req ts) = length ts.
Proof. unfold at_times. by rewrite length_fmap. Qed.

(** X12: for the requests of a single client that has an address, on a
    clock on which neither filter removes anything, the JavaScript
    limiter and the TypeScript limiter take the same decisions. *)
Theorem limiters_agree_on_one_client opts req jreq ts :
  is_Some (js_ip jreq) →
  always_fresh opts ts →
  never_thousandfold ts →
  (serveJs opts (at_times jreq ts)).2 = Some <$> outcomes opts (at_times req ts).
Proof.
  intros Haddr. unfold outcomes.
  induction ts as [|t ts IH] using rev_ind; intros Hfresh Hclock; [done|].
  pose proof Hfresh as Hfresh'. pose proof Hclock as Hclock'.
  apply always_fresh_snoc in Hfresh' as [Hfresh' _].
  apply never_thousandfold_snoc in Hclock' as [Hclock' Hkept].
  rewrite !at_times_snoc, serveJs_snoc, serve_snoc, serve_one_eq.
  unfold serveJs_one. simpl. rewrite !fmap_app. simpl.
  rewrite rateLimiter_outcome, recent_all_admitted
    by (by rewrite times_snoc, times_at_times).
  rewrite admitted_count by (by rewrite times_at_times).
  rewrite requests_of_at_times, length_at_times.
  destruct (js_counts opts (at_times jreq ts)) as (Hin & Hlen & _).
  { by rewrite readings_at_times. }
  rewrite readings_at_times in Hin.
  rewrite with_address_at_times, length_at_times in Hlen by done.
  pose proof (rateLimiterJs_step opts jreq t
                (serveJs opts (at_times jreq ts)).1 Haddr) as Hstep.
  cbv zeta in Hstep.
  rewrite filter_keeps_all in Hstep by (intros x Hx; by apply Hkept, Hin).
  destruct Hstep as (σ' & -> & _). simpl.
  rewrite Hlen, (IH Hfresh' Hclock'). done.
Qed.

Lemma limiters_agree_on_one_client_witness :
  is_Some (js_ip js_client) ∧
  always_fresh two_per_minute [T0; T0 + 1; T0 + 86400000] ∧
  never_thousandfold [T0; T0 + 1; T0 + 86400000] ∧
  (serveJs two_per_minute (at_times js_client [T0; T0 + 1; T0 + 86400000])).2 =
    Some <$> outcomes two_per_minute
               (at_times client [T0; T0 + 1; T0 + 86400000]).
Proof.
  assert (is_Some (js_ip js_client)) as Haddr by (simpl; eauto).
  assert (always_fresh two_per_minute [T0; T0 + 1; T0 + 86400000]) as Hfresh.
  { apply (epoch_clock_always_fresh _ (10 ^ 12)); [reflexivity|].
    repeat constructor; vm_compute; discriminate. }
  assert (never_thousandfold [T0; T0 + 1; T0 + 86400000]) as Hclock.
  { apply (epoch_clock_never_thousandfold (10 ^ 12)); [reflexivity|].
    repeat constructor; vm_compute; discriminate. }
  split_and!; [done..|].
  exact (limiters_agree_on_one_client two_per_minute client js_client
           [T0; T0 + 1; T0 + 86400000] Haddr Hfresh Hclock).
Defined.

(** * The route handlers *)

Lemma truthy_Some q v : truthy q = Some v → q = Some v ∧ v ≠ QString "".
Proof.
  unfold truthy. destruct q as [[s|]|]; [|by intros [= <-]|done].
  case_decide; [done|]. intros [= <-]. split; [done|]. congruence.
Qed.

Lemma list_find_filter_None {A} (P : A → Prop) `{!∀ x, Decision (P x)} (l : list A) :
  list_find P l = None ↔ filter P l = [].
Proof.
  rewrite list_find_None. split.
  - intros Hall. induction l as [|a l IH]; [done|].
    apply Forall_cons in Hall as [Ha Hl].
    rewrite filter_cons_False by done. by apply IH.
  - intros Hnil. apply Forall_forall. intros x Hx HP.
    by eapply filter_nil_not_elem_of.
Qed.

(** X13: when the delete handler answers 200, the favourites it leaves
    and sends back are exactly the favourites whose [imdbID] is the
    given id, in their order, and there is at least one: the movie named
    in the request stays, all other favourites are dropped. *)
Theorem delete_keeps_only_the_named req favs :
  status (deleteFromFavoritesMoviesById req favs).2 = 200 →
  ∃ id,
    query_id req = Some id ∧
    (deleteFromFavoritesMoviesById req favs).1 = filter (has_id id) favs ∧
    (deleteFromFavoritesMoviesById req favs).2 = ok_reply (filter (has_id id) favs) ∧
    filter (has_id id) favs ≠ [].
Proof.
  unfold deleteFromFavoritesMoviesById.
  destruct (truthy (query_id req)) as [id|] eqn:Hid; [|done].
  apply truthy_Some in Hid as [Hid _].
  destruct (list_find (has_id id) favs) as [found|] eqn:Hfind; [|done].
  intros _. exists id. split_and!; [done..|].
  intros Hnil%list_find_filter_None. congruence.
Qed.

Lemma delete_keeps_only_the_named_witness :
  status (deleteFromFavoritesMoviesById (by_id "tt1375666")
            [matrix; inception]).2 = 200 ∧
  ∃ id,
    query_id (by_id "tt1375666") = Some id ∧
    (deleteFromFavoritesMoviesById (by_id "tt1375666") [matrix; inception]).1 =
      filter (has_id id) [matrix; inception] ∧
    (deleteFromFavoritesMoviesById (by_id "tt1375666") [matrix; inception]).2 =
      ok_reply (filter (has_id id) [matrix; inception]) ∧
    filter (has_id id) [matrix; inception] ≠ [].
Proof.
  assert (status (deleteFromFavoritesMoviesById (by_id "tt1375666")
                    [matrix; inception]).2 = 200) as Hok
    by (vm_compute; reflexivity).
  split; [done|].
  exact (delete_keeps_only_the_named (by_id "tt1375666") [matrix; inception] Hok).
Defined.

(** X14: the delete handler answers 404 exactly when an id is given and
    no favourite has it, and 400 exactly when the id is missing or
    empty; in both cases the favourites are left as they were. *)
Theorem delete_refusals req favs :
  (status (deleteFromFavoritesMoviesById req favs).2 = 400 ↔
     truthy (query_id req) = None) ∧
  (status (deleteFromFavoritesMoviesById req favs).2 = 404 ↔
     ∃ id, truthy (query_id req) = Some id ∧ Forall (λ m, ¬ has_id id m) favs) ∧
  (status (deleteFromFavoritesMoviesById req favs).2 ≠ 200 →
     (deleteFromFavoritesMoviesById req favs).1 = favs).
Proof.
  unfold deleteFromFavoritesMoviesById.
  destruct (truthy (query_id req)) as [id|] eqn:Hid.
  - destruct (list_find (has_id id) favs) as [found|] eqn:Hfind; simpl.
    + split_and!; [done| |done].
      split; [done|]. intros (id' & [= <-] & Hnone).
      assert (list_find (has_id id) favs = None) as Hnot
        by (by apply (list_find_None (has_id id) favs)).
      congruence.
    + split_and!; [done| |done].
      split; [|done]. intros _. exists id. split; [done|].
      by apply (list_find_None (has_id id) favs).
  - simpl. split_and!; [done| |done]. split; [done|]. by intros (id & ? & _).
Qed.

(** X15: a delete that was answered 200, repeated, is answered 200 again
    and leaves the same favourites: a movie cannot be removed by asking
    again. *)
Theorem delete_again req favs :
  status (deleteFromFavoritesMoviesById req favs).2 = 200 →
  deleteFromFavoritesMoviesById req (deleteFromFavoritesMoviesById req favs).1 =
  deleteFromFavoritesMoviesById req favs.
Proof.
  unfold deleteFromFavoritesMoviesById.
  destruct (truthy (query_id req)) as [id|] eqn:Hid; [|done].
  destruct (list_find (has_id id) favs) as [found|] eqn:Hfind; [|done].
  intros _. simpl.
  assert (filter (has_id id) (filter (has_id id) favs) = filter (has_id id) favs)
    as Hidem by (by apply list_filter_filter_l).
  destruct (list_find (has_id id) (filter (has_id id) favs)) as [found'|] eqn:Hagain.
  - by rewrite Hidem.
  - apply list_find_filter_None in Hagain. rewrite Hidem in Hagain.
    apply list_find_filter_None in Hagain. congruence.
Qed.

Lemma delete_again_witness :
  status (deleteFromFavoritesMoviesById (by_id "tt1375666")
            [matrix; inception]).2 = 200 ∧
  deleteFromFavoritesMoviesById (by_id "tt1375666")
    (deleteFromFavoritesMoviesById (by_id "tt1375666") [matrix; inception]).1 =
  deleteFromFavoritesMoviesById (by_id "tt1375666") [matrix; inception].
Proof.
  assert (status (deleteFromFavoritesMoviesById (by_id "tt1375666")
                    [matrix; inception]).2 = 200) as Hok
    by (vm_compute; reflexivity).
  split; [done|].
  exact (delete_again (by_id "tt1375666") [matrix; inception] Hok).
Defined.

(** X16: what the add handler does to the favourites.  When the id
    parameter is truthy and a non-empty key is available, a successful
    upstream fetch appends the fetched movie at the end and answers 200
    with it, whatever the favourites hold already, so that adding the
    same movie twice leaves two copies; a failed fetch answers 500 and
    changes nothing.  When the id is missing or empty the answer is 400,
    and when no key is available it is 401, both without change and
    whatever the upstream answer would be. *)
Theorem add_appends API_KEY req favs :
  let run fetched l := complete (addFavoritesMoviesById API_KEY req) fetched l in
  let key := js_or (headers_authorization req) API_KEY in
  (is_Some (truthy (query_id req)) ∧ is_Some (nonempty key) →
     (∀ data, run (Some data) favs = (favs ++ [data], ok_reply data)) ∧
     (∀ data, (run (Some data) (run (Some data) favs).1).1 = favs ++ [data; data]) ∧
     run None favs = (favs, error_reply 500 "Failed to fetch IMDB data")) ∧
  (truthy (query_id req) = None →
     ∀ fetched, run fetched favs = (favs, error_reply 400 "Missing id parameter")) ∧
  (is_Some (truthy (query_id req)) ∧ nonempty key = None →
     ∀ fetched,
       run fetched favs =
       (favs, error_reply 401
                "Missing API key. Please provide authorization header.")).
Proof.
  intros run key. subst run key. unfold addFavoritesMoviesById.
  destruct (truthy (query_id req)) as [id|]; simpl.
  - destruct (nonempty (js_or (headers_authorization req) API_KEY)) as [k|];
      simpl; split_and!.
    + intros _. split_and!; [done| |done].
      intros data. by rewrite <- app_assoc.
    + done.
    + by intros [_ ?].
    + by intros [_ [? ?]].
    + done.
    + done.
  - split_and!; [by intros [[? ?] _]|done|by intros [[? ?] _]].
Qed.

Lemma add_appends_witness :
  (is_Some (truthy (query_id (by_id "tt1375666"))) ∧
   is_Some (nonempty (js_or (headers_authorization (by_id "tt1375666"))
                        (Some "server-key")))) ∧
  complete (addFavoritesMoviesById (Some "server-key") (by_id "tt1375666"))
    (Some inception) [matrix; inception] =
  ([matrix; inception; inception], ok_reply inception).
Proof.
  assert (is_Some (truthy (query_id (by_id "tt1375666"))) ∧
          is_Some (nonempty (js_or (headers_authorization (by_id "tt1375666"))
                               (Some "server-key")))) as Hvalid
    by (split; vm_compute; eauto).
  split; [done|].
  exact (proj1 (proj1 (add_appends (Some "server-key") (by_id "tt1375666")
                         [matrix; inception]) Hvalid) inception).
Defined.

(** X17: a movie added and then deleted by its own id is still among the
    favourites, and the favourites of every other id are gone. *)
Theorem add_then_delete API_KEY req data favs dreq :
  imdbID data ≠ "" →
  query_id dreq = Some (QString (imdbID data)) →
  (complete (addFavoritesMoviesById API_KEY req) (Some data) favs).2 =
    ok_reply data →
  let favs1 := (complete (addFavoritesMoviesById API_KEY req) (Some data) favs).1 in
  let result := deleteFromFavoritesMoviesById dreq favs1 in
  status result.2 = 200 ∧
  result.1 = filter (has_id (QString (imdbID data))) favs ++ [data] ∧
  data ∈ result.1 ∧
  ∀ m, m ∈ result.1 → imdbID m = imdbID data.
Proof.
  intros Hid Hdreq. unfold addFavoritesMoviesById.
  destruct (truthy (query_id req)) as [id|]; simpl; [|done].
  destruct (nonempty (js_or (headers_authorization req) API_KEY)); simpl; [|done].
  intros _. unfold deleteFromFavoritesMoviesById, truthy. rewrite Hdreq.
  rewrite decide_False by done.
  assert (filter (has_id (QString (imdbID data))) (favs ++ [data]) =
          filter (has_id (QString (imdbID data))) favs ++ [data]) as Hfilter.
  { rewrite filter_app. f_equal. rewrite filter_singleton; [|exact []].
    by rewrite decide_True. }
  destruct (list_find _ (favs ++ [data])) as [found|] eqn:Hfind; simpl.
  - rewrite Hfilter. split_and!; [done|done|set_solver|].
    intros m [[Hm _]%list_elem_of_filter| ->%list_elem_of_singleton]%elem_of_app;
      [|done].
    unfold has_id in Hm. congruence.
  - apply list_find_filter_None in Hfind. rewrite Hfilter in Hfind.
    by destruct (filter _ favs).
Qed.

Lemma add_then_delete_witness :
  imdbID inception ≠ "" ∧
  query_id (by_id "tt1375666") = Some (QString (imdbID inception)) ∧
  (complete (addFavoritesMoviesById (Some "secret") (by_id "tt1375666"))
     (Some inception) [matrix; inception]).2 = ok_reply inception ∧
  let favs1 := (complete (addFavoritesMoviesById (Some "secret")
                            (by_id "tt1375666"))
                  (Some inception) [matrix; inception]).1 in
  let result := deleteFromFavoritesMoviesById (by_id "tt1375666") favs1 in
  status result.2 = 200 ∧
  result.1 = filter (has_id (QString (imdbID inception))) [matrix; inception]
               ++ [inception] ∧
  inception ∈ result.1 ∧
  ∀ m, m ∈ result.1 → imdbID m = imdbID inception.
Proof.
  assert (imdbID inception ≠ "") as Hid by (vm_compute; discriminate).
  assert (query_id (by_id "tt1375666") = Some (QString (imdbID inception)))
    as Hdreq by reflexivity.
  assert ((complete (addFavoritesMoviesById (Some "secret") (by_id "tt1375666"))
             (Some inception) [matrix; inception]).2 = ok_reply inception)
    as Hadded by (vm_compute; reflexivity).
  split_and!; [done|done|done|].
  exact (add_then_delete (Some "secret") (by_id "tt1375666") inception
           [matrix; inception] (by_id "tt1375666") Hid Hdreq Hadded).
Defined.

Lemma nonempty_Some a s : nonempty a = Some s → a = Some s ∧ s ≠ "".
Proof.
  unfold nonempty. destruct a as [s'|]; [|done]. case_decide; [done|].
  by intros [= <-].
Qed.

Lemma js_or_key auth API_KEY key :
  nonempty (js_or auth API_KEY) = Some key →
  key ≠ "" ∧
  (auth = Some key ∨ (nonempty auth = None ∧ API_KEY = Some key)).
Proof.
  unfold js_or. destruct (nonempty auth) as [s|] eqn:Hauth.
  - apply nonempty_Some in Hauth as [-> Hs]. simpl.
    rewrite decide_False by done. intros [= <-]. auto.
  - intros [-> Hkey]%nonempty_Some. auto.
Qed.

(** X18: the two search handlers and the add handler contact the
    upstream service only with a non-empty key in the [authorization]
    header: the header of the request when it has a non-empty one, the
    server's [API_KEY] otherwise; and the parameter they send is the
    (truthy) parameter of the request. *)
Theorem upstream_calls_carry_a_key {D} API_KEY req call :
  (∃ resume, imdbSearchByName (D := D) API_KEY req = Await call resume) ∨
  (∃ resume, imdbSearchById (D := D) API_KEY req = Await call resume) ∨
  (∃ resume, addFavoritesMoviesById API_KEY req = Await call resume) →
  ∃ key,
    key ≠ "" ∧
    authorization_header call = ("apikey " ++ key)%string ∧
    (headers_authorization req = Some key ∨
     (nonempty (headers_authorization req) = None ∧ API_KEY = Some key)) ∧
    (query_query req = Some (parameter call) ∨
     query_id req = Some (parameter call)) ∧
    parameter call ≠ QString "".
Proof.
  unfold imdbSearchByName, imdbSearchById, addFavoritesMoviesById.
  intros [[resume H]|[[resume H]|[resume H]]].
  - destruct (truthy (query_query req)) as [q|] eqn:Hq; [|done].
    destruct (nonempty _) as [key|] eqn:Hkey; [|done].
    injection H as <- _. apply truthy_Some in Hq as [Hq Hne].
    apply js_or_key in Hkey as [Hkey Hfrom]. exists key. simpl.
    split_and!; auto.
  - destruct (truthy (query_id req)) as [q|] eqn:Hq; [|done].
    destruct (nonempty _) as [key|] eqn:Hkey; [|done].
    injection H as <- _. apply truthy_Some in Hq as [Hq Hne].
    apply js_or_key in Hkey as [Hkey Hfrom]. exists key. simpl.
    split_and!; auto.
  - destruct (truthy (query_id req)) as [q|] eqn:Hq; [|done].
    destruct (nonempty _) as [key|] eqn:Hkey; [|done].
    injection H as <- _. apply truthy_Some in Hq as [Hq Hne].
    apply js_or_key in Hkey as [Hkey Hfrom]. exists key. simpl.
    split_and!; auto.
Qed.

Lemma upstream_calls_carry_a_key_witness :
  let call := {| url_prefix :=
                   "https://api.collectapi.com/imdb/imdbSearchByName?query=";
                 parameter := QString "inception";
                 authorization_header := "apikey client-key" |} in
  ((∃ resume, imdbSearchByName (D := IMovie) (Some "server-key") search_request
              = Await call resume) ∨
   (∃ resume, imdbSearchById (D := IMovie) (Some "server-key") search_request
              = Await call resume) ∨
   (∃ resume, addFavoritesMoviesById (Some "server-key") search_request
              = Await call resume)) ∧
  ∃ key,
    key ≠ "" ∧
    authorization_header call = ("apikey " ++ key)%string ∧
    (headers_authorization search_request = Some key ∨
     (nonempty (headers_authorization search_request) = None ∧
      Some "server-key" = Some key)) ∧
    (query_query search_request = Some (parameter call) ∨
     query_id search_request = Some (parameter call)) ∧
    parameter call ≠ QString "".
Proof.
  intros call.
  assert ((∃ resume, imdbSearchByName (D := IMovie) (Some "server-key")
                       search_request = Await call resume) ∨
          (∃ resume, imdbSearchById (D := IMovie) (Some "server-key")
                       search_request = Await call resume) ∨
          (∃ resume, addFavoritesMoviesById (Some "server-key") search_request
                     = Await call resume)) as Hcall
    by (left; eexists; reflexivity).
  split; [done|].
  exact (upstream_calls_carry_a_key (D := IMovie) (Some "server-key")
           search_request call Hcall).
Defined.

Lemma search_replies_of {D} (q : option QueryValue) (key : option string)
    (call : QueryValue → string → UpstreamCall)
    (missing : string) (fetched : option D) :
  search_replies
    (match truthy q with
     | None => Done (error_reply 400 missing)
     | Some query =>
         match nonempty key with
         | None =>
             Done (error_reply 401
                     "Missing API key. Please provide authorization header.")
         | Some apiKey =>
             Await (call query apiKey)
               (λ fetched,
                  match fetched with
                  | Some data => ok_reply data
                  | None => error_reply 500 "Failed to fetch IMDB data"
                  end)
         end
     end) q key fetched.
Proof.
  unfold search_replies.
  destruct (truthy q) as [query|]; simpl;
    [destruct (nonempty key) as [apiKey|]; simpl; [destruct fetched; simpl|]|];
    split_and!; try (split; intros; try done); intros;
      try discriminate; try congruence;
      repeat match goal with
             | H : _ ∧ _ |- _ => destruct H
             | H : is_Some None |- _ => by destruct H
             | |- _ ∧ _ => split
             | |- is_Some (Some _) => eauto
             end; try done; try congruence.
Qed.

(** X19: which status a search request gets: 400 when the parameter is
    missing or empty, whatever the key; else 401 when neither the
    request nor the server has a non-empty key; else 500 when the fetch
    fails; else 200 with the fetched data unchanged. *)
Theorem search_status_table {D} API_KEY req (fetched : option D) :
  search_replies (imdbSearchByName API_KEY req) (query_query req)
    (js_or (headers_authorization req) API_KEY) fetched ∧
  search_replies (imdbSearchById API_KEY req) (query_id req)
    (js_or (headers_authorization req) API_KEY) fetched.
Proof.
  split.
  - apply (search_replies_of (query_query req) _
             (λ query apiKey,
                {| url_prefix :=
                     "https://api.collectapi.com/imdb/imdbSearchByName?query=";
                   parameter := query;
                   authorization_header := "apikey " ++ apiKey |})).
  - apply (search_replies_of (query_id req) _
             (λ query apiKey,
                {| url_prefix :=
                     "https://api.collectapi.com/imdb/imdbSearchById?movieId=";
                   parameter := query;
                   authorization_header := "apikey " ++ apiKey |})).
Qed.
